(** * decapta: record codec and configuration synchronisation

    A shallow embedding of the Go package [model] of kyodo-tech/decapta
    (files [model.go], [csv.go], [arb.go]) and of the parsing of the
    [--slug] flag in [main.go], together with the properties its
    specification states about it and further properties of the code.

    Conventions of the embedding.
    - A Go [string] is a Rocq [string] (a sequence of bytes).
    - A Go [map[string]T] is a [gmap string T]; reading an absent key of a
      [map[string]bool] yields [false], as in Go.
    - A [[]T] is a [list T].
    - Files are not modelled as bytes: a YAML content file is the mapping
      it stores, a CSV file is its list of records, a JSON object is the
      sequence of members it lists.  A directory is a map from file names
      to contents.
    - The third-party libraries ([encoding/json], [gopkg.in/yaml], [sort],
      [strconv], [path/filepath]) are modelled by the part of their
      documented behaviour the package relies on; each such definition
      says so. *)

From Stdlib Require Import String Ascii ZArith DecimalString DecimalZ.
From Stdlib Require OrderedTypeEx.
From stdpp Require Import gmap strings list fin_maps sorting.

Local Open Scope string_scope.
Local Open Scope list_scope.

(** ** Go library functions used by the package *)

Module GoStrings.

(** [stripPrefix p s] is [Some r] when [s = p ++ r]. *)
Fixpoint stripPrefix (p s : string) : option string :=
  match p with
  | EmptyString => Some s
  | String a p' =>
      match s with
      | EmptyString => None
      | String b s' => if Ascii.eqb a b then stripPrefix p' s' else None
      end
  end.

(** [strings.HasPrefix(s, prefix)] *)
Definition HasPrefix (s p : string) : bool :=
  match stripPrefix p s with Some _ => true | None => false end.

(** [strings.TrimPrefix(s, prefix)] *)
Definition TrimPrefix (s p : string) : string :=
  match stripPrefix p s with Some r => r | None => s end.

(** [strings.HasSuffix] and [strings.TrimSuffix], through the reversed
    strings. *)
Definition rev_string (s : string) : string :=
  string_of_list_ascii (rev (list_ascii_of_string s)).

Definition HasSuffix (s suf : string) : bool :=
  HasPrefix (rev_string s) (rev_string suf).

Definition TrimSuffix (s suf : string) : string :=
  rev_string (TrimPrefix (rev_string s) (rev_string suf)).

(** [strings.Join(parts, sep)] *)
Definition Join (parts : list string) (sep : string) : string :=
  String.concat sep parts.

(** [strings.Contains(s, "\n")] *)
Definition ContainsNewline (s : string) : bool :=
  existsb (Ascii.eqb (ascii_of_nat 10)) (list_ascii_of_string s).

Definition mapBytes (f : ascii → ascii) (s : string) : string :=
  string_of_list_ascii (List.map f (list_ascii_of_string s)).

Definition lowerByte (c : ascii) : ascii :=
  let n := nat_of_ascii c in
  if (65 <=? n)%nat && (n <=? 90)%nat then ascii_of_nat (n + 32) else c.

Definition upperByte (c : ascii) : ascii :=
  let n := nat_of_ascii c in
  if (97 <=? n)%nat && (n <=? 122)%nat then ascii_of_nat (n - 32) else c.

(** [strings.ToLower] and [strings.ToUpper] on ASCII text; bytes outside
    the ASCII letters are kept. *)
Definition ToLower (s : string) : string := mapBytes lowerByte s.
Definition ToUpper (s : string) : string := mapBytes upperByte s.

(** [strings.Split(s, sep)] for a separator [sep] of one byte: the
    substrings between the separators, at least one. *)
Fixpoint Split (s : string) (sep : ascii) : list string :=
  match s with
  | EmptyString => [EmptyString]
  | String c r =>
      if Ascii.eqb c sep then EmptyString :: Split r sep
      else
        match Split r sep with
        | [] => [String c EmptyString]
        | part :: parts => String c part :: parts
        end
  end.

End GoStrings.

(** [sort.Slice(x, less)].  The library sorts short slices by insertion
    (each element moves left while it is [less] than its predecessor) and
    promises for all slices only a permutation ordered by [less]; equal
    elements keep their relative order under insertion. *)
Module GoSort.

Fixpoint insert {A} (less : A → A → bool) (x : A) (sorted : list A) : list A :=
  match sorted with
  | [] => [x]
  | y :: rest =>
      if less x y then x :: y :: rest else y :: insert less x rest
  end.

Definition Slice {A} (less : A → A → bool) (x : list A) : list A :=
  fold_left (fun sorted e => insert less e sorted) x [].

(** The comparison [key(a) < key(b)] of integer keys, and the order a
    slice sorted by it is in. *)
Definition keyLess {A} (key : A → Z) (a b : A) : bool := (key a <? key b)%Z.
Definition keyLe {A} (key : A → Z) (a b : A) : Prop := (key a ≤ key b)%Z.

(** [sort.Strings]: increasing byte-wise order. *)
Definition Strings (x : list string) : list string := Slice String.ltb x.

End GoSort.

(** [strconv.Atoi] and the [%d] verb, for a 64-bit [int]. *)
Module GoStrconv.

Definition maxInt : Z := 9223372036854775807.
Definition minInt : Z := -9223372036854775808.

(** [Atoi]: an optional sign followed by at least one decimal digit and
    nothing else; a value outside the range of [int] is an error. *)
Definition Atoi (s : string) : option Z :=
  let '(neg, digits) :=
    match s with
    | String "-" r => (true, r)
    | String "+" r => (false, r)
    | _ => (false, s)
    end in
  match digits with
  | EmptyString => None
  | _ =>
      match NilEmpty.uint_of_string digits with
      | Some d =>
          let n := if neg then (- Z.of_uint d)%Z else Z.of_uint d in
          if ((minInt <=? n) && (n <=? maxInt))%Z then Some n else None
      | None => None
      end
  end.

(** [fmt.Sprintf("%d", n)] *)
Definition Itoa (n : Z) : string := NilZero.string_of_int (Z.to_int n).

End GoStrconv.

(** [filepath.Ext]: the suffix starting at the last dot of the last path
    element, empty when that element has no dot. *)
Module GoFilepath.

Fixpoint extFrom (reversed : list ascii) (suffix : list ascii) : list ascii :=
  match reversed with
  | [] => []
  | c :: before =>
      if Ascii.eqb c "/" then []
      else if Ascii.eqb c "." then c :: suffix
      else extFrom before (c :: suffix)
  end.

Definition Ext (path : string) : string :=
  string_of_list_ascii (extFrom (rev (list_ascii_of_string path)) []).

(** [filepath.Join(dir, name)] for two non-empty elements that need no
    cleaning. *)
Definition Join (dir name : string) : string := dir +:+ "/" +:+ name.

Fixpoint dropSeparators (reversed : list ascii) : list ascii :=
  match reversed with
  | [] => []
  | c :: before => if Ascii.eqb c "/" then dropSeparators before else reversed
  end.

Fixpoint lastElement (reversed : list ascii) (suffix : list ascii)
    : list ascii :=
  match reversed with
  | [] => suffix
  | c :: before =>
      if Ascii.eqb c "/" then suffix else lastElement before (c :: suffix)
  end.

(** [filepath.Base]: the last element of the path after its trailing
    separators are removed; ["."] for the empty path and ["/"] for a path
    of separators only. *)
Definition Base (path : string) : string :=
  match path with
  | EmptyString => "."
  | _ =>
      match lastElement
              (dropSeparators (rev (list_ascii_of_string path))) [] with
      | [] => "/"
      | element => string_of_list_ascii element
      end
  end.

End GoFilepath.

(** [os.ReadDir]: the entries of a directory sorted by file name. *)
Definition ReadDir {X} (dir : gmap string X) : list (string * X) :=
  GoSort.Slice (fun a b => String.ltb a.1 b.1) (map_to_list dir).

Import GoStrings.

(** ** model.go: constants shared by the codecs *)

Definition decaptaIDField : string := "slug".
Definition decaptaPrefix : string := "decapta_".

Definition reservedFields : gmap string bool := {[ "data" := true ]}.

(** Indexing a [map[string]bool]: the zero value [false] for absent keys. *)
Definition isReserved (fieldName : string) : bool :=
  default false (reservedFields !! fieldName).

(** ** csv.go: reserved-name aliasing *)

Definition addPrefixIfReserved (fieldName : string) : string :=
  if isReserved fieldName then decaptaPrefix +:+ fieldName else fieldName.

Definition removePrefixIfReserved (fieldName : string) : string :=
  if HasPrefix fieldName decaptaPrefix
     && isReserved (TrimPrefix fieldName decaptaPrefix)
  then TrimPrefix fieldName decaptaPrefix
  else fieldName.

(** ** csv.go: identifier synthesis

    A per-entity document of a tabular source is a [map[string]interface{}]
    whose values are the strings of the row; [fmt.Sprintf("%v", v)] of a
    string is the string itself. *)

Definition generateIdentifierField
    (data : gmap string string) (fields : list string) : string :=
  let slugParts :=
    fold_left
      (fun parts field =>
         match data !! field with
         | Some value => parts ++ [value]
         | None => parts
         end)
      fields [] in
  Join slugParts "-".

(** The body of the row loop of [CSVPreProcess]: the document written for
    one record. *)
Definition rowData (headers record : list string) : gmap string string :=
  fold_left
    (fun data '(j, value) =>
       match headers !! j with
       | Some header => <[addPrefixIfReserved header := value]> data
       | None => data
       end)
    (imap (fun j value => (j, value)) record) ∅.

Definition rowDocument
    (headers record slugFields : list string) : gmap string string :=
  let data := rowData headers record in
  <[decaptaIDField := generateIdentifierField data slugFields]> data.

(** ** csv.go: forward and reverse conversion of one table

    The content of one tabular source on disk: the Column Order Record
    [contentDir/.<csvName>.yaml] (absent before the first forward
    conversion) and the directory [contentDir/<csvName>/] of per-entity
    documents.  The YAML encoder and decoder are taken to give back the
    mapping that was stored. *)

Record ContentDir := {
  columnOrderFile : option (list string);
  entityFiles : gmap string (gmap string string)
}.

Definition emptyContentDir : ContentDir :=
  {| columnOrderFile := None; entityFiles := ∅ |}.

(** [fmt.Sprintf("%d.yaml", i+1)] *)
Definition entityFileName (i : nat) : string :=
  GoStrconv.Itoa (Z.of_nat i + 1) +:+ ".yaml".

(** The row loop of [CSVPreProcess]: one document per record, written
    under the 1-based row number. *)
Definition writeEntityFiles (headers slugFields : list string)
    (rows : list (list string)) (files : gmap string (gmap string string))
    : gmap string (gmap string string) :=
  fold_left
    (fun files '(i, record) =>
       <[entityFileName i := rowDocument headers record slugFields]> files)
    (imap (fun i record => (i, record)) rows)
    files.

(** The body of the file loop of [CSVPreProcess] for one CSV file whose
    parsed content is [records]. *)
Definition CSVPreProcess
    (records : list (list string)) (slugFields : list string)
    (dir : ContentDir) : ContentDir :=
  match records with
  | [] => dir
  | headers :: rows =>
      let adjustedHeaders := addPrefixIfReserved <$> headers in
      {| columnOrderFile := Some adjustedHeaders;
         entityFiles :=
           writeEntityFiles headers slugFields rows (entityFiles dir) |}
  end.

(** The file name without its extension. *)
Definition fileStem (filename : string) : string :=
  TrimSuffix filename (GoFilepath.Ext filename).

Definition extractFileNumber (filename : string) : Z :=
  let name := fileStem filename in
  match GoStrconv.Atoi name with
  | Some num => num
  | None => (-1)%Z
  end.

(** The order of two files by their numbers. *)
Abbreviation fileNumberLe :=
  (GoSort.keyLe (fun f : string * gmap string string => extractFileNumber f.1)).

(** The files of a source directory after [sort.Slice]. *)
Definition sortedFiles {X} (files : gmap string X) : list (string * X) :=
  GoSort.Slice (GoSort.keyLess (fun f => extractFileNumber f.1))
    (ReadDir files).

Definition isRecordFile (csvName : string) (name : string) : bool :=
  HasSuffix name ".yaml" && negb (String.eqb name ("." +:+ csvName +:+ ".yaml")).

(** The files whose documents become rows, in the order they are read. *)
Definition recordFiles {X} (csvName : string) (files : gmap string X)
    : list (string * X) :=
  filter (fun f => isRecordFile csvName f.1) (sortedFiles files).

(** One row of the regenerated table. *)
Definition csvRow (headers : list string) (record : gmap string string)
    : list string :=
  (fun header => default "" (record !! addPrefixIfReserved header)) <$> headers.

(** The body of the directory loop of [CSVPostProcess] for the source
    [csvName]: the records written to [csvName.csv], or [None] when the
    Column Order Record cannot be read. *)
Definition CSVPostProcess (csvName : string) (dir : ContentDir)
    : option (list (list string)) :=
  match columnOrderFile dir with
  | None => None
  | Some headers =>
      let records := (recordFiles csvName (entityFiles dir)).*2 in
      let originalHeaders := removePrefixIfReserved <$> headers in
      Some (originalHeaders :: (csvRow headers <$> records))
  end.

(** What a record is expected to come back as: its own cells, except that
    a column named like the identifier field holds the identifier. *)
Definition restoredRow (headers slugFields record : list string) : list string :=
  zip_with
    (fun header value =>
       if decide (header = decaptaIDField)
       then generateIdentifierField (rowData headers record) slugFields
       else value)
    headers record.

(** ** model.go: the configuration document tree

    [yaml.Node] of gopkg.in/yaml.v3, restricted to what the package reads
    and writes: kind, tag, value, children and the three comment fields.
    Anchors, aliases, style and positions are not modelled.  A mapping
    node lists its entries as key, value, key, value, ... in [Content]. *)

#[local] Set Warnings "-register-all,-clear-no-such-hyp".

Inductive NodeKind :=
  DocumentNode | SequenceNode | MappingNode | ScalarNode | AliasNode.

Inductive Node := mkNode {
  Kind : NodeKind;
  Tag : string;
  Value : string;
  Content : list Node;
  HeadComment : string;
  LineComment : string;
  FootComment : string
}.

Global Instance NodeKind_eq_dec : EqDecision NodeKind.
Proof. solve_decision. Defined.

(** [&yaml.Node{Kind: yaml.ScalarNode, Value: v}] *)
Definition scalarLit (v : string) : Node :=
  mkNode ScalarNode "" v [] "" "" "".

(** [&yaml.Node{Kind: yaml.SequenceNode, Tag: "!!seq"}] *)
Definition sequenceLit : Node :=
  mkNode SequenceNode "!!seq" "" [] "" "" "".

(** [node.Content = c] *)
Definition setContent (node : Node) (c : list Node) : Node :=
  mkNode (Kind node) (Tag node) (Value node) c
         (HeadComment node) (LineComment node) (FootComment node).

(** [node.Content = append(node.Content, extra...)] *)
Definition appendContent (node : Node) (extra : list Node) : Node :=
  setContent node (Content node ++ extra).

(** [node.Content[i]] is updated in place through the pointer the
    slice holds. *)
Definition setChild (node : Node) (i : nat) (child : Node) : Node :=
  setContent node (<[i := child]> (Content node)).

(** A run-time panic (index out of range, nil dereference) aborts the
    whole operation. *)
Inductive result (A : Type) := Ok (a : A) | Panic.
Arguments Ok {A} a.
Arguments Panic {A}.

Definition bind {A B} (r : result A) (k : A → result B) : result B :=
  match r with
  | Ok a => k a
  | Panic => Panic
  end.

Notation "x ←! r ; k" := (bind r (fun x => k))
  (at level 20, r at level 100, k at level 200, right associativity,
   format "x  ←!  r ;  '/' k").

(** The loop of [findFieldInNode], returning the index in [content] of
    the value it yields: the element after the first even-indexed
    element whose [Value] is [key].  Reading past the end panics. *)
Fixpoint findFieldIndex (content : list Node) (key : string)
    : result (option nat) :=
  match content with
  | [] => Ok None
  | k :: after =>
      if String.eqb (Value k) key then
        match after with
        | [] => Panic
        | _ :: _ => Ok (Some 1)
        end
      else
        match after with
        | [] => Ok None
        | _ :: rest =>
            j ←! findFieldIndex rest key;
            Ok ((fun j => S (S j)) <$> j)
        end
  end.

Definition findFieldInNode (node : Node) (key : string)
    : result (option Node) :=
  j ←! findFieldIndex (Content node) key;
  Ok (match j with
      | Some j => Content node !! j
      | None => None
      end).

(** ** model.go: schema descriptors

    The structs [Field], [File], [Editor] and [Collection].  The fields
    [Default] and [Meta] of [Field] (an [interface{}] and a map of them)
    are left out: no code of the package sets them, and being empty they
    are omitted from every encoding. *)

Module Field.
Inductive t := mk {
  Label : string;
  Name : string;
  Widget : string;
  Modes : list string;
  Fields : list t;
  Collapsed : bool;
  Hint : string;
  Placeholder : string;
  Required : bool;
  Pattern : string;
  PatternMsg : string
}.
End Field.
Abbreviation Field := Field.t.

Module File.
Record t := mk {
  Name : string;
  Label : string;
  File : string;
  Fields : list Field
}.
End File.
Abbreviation File := File.t.

Module Editor.
Record t := mk { Preview : bool }.
End Editor.
Abbreviation Editor := Editor.t.

Module Collection.
Record t := mk {
  Name : string;
  Label : string;
  Folder : string;
  Create : bool;
  Slug : string;
  IdentifierField : string;
  Format : string;
  Extension : string;
  Editor : Editor.t;
  Files : list File;
  Fields : list Field
}.
End Collection.
Abbreviation Collection := Collection.t.

(** ** yaml.v3: encoding a struct into a node ([Node.Encode])

    A struct becomes a mapping node whose keys follow the declaration
    order of the struct, under the names of the [yaml] tags; a field
    tagged [omitempty] is left out when it holds its zero value (empty
    string, [false], empty slice, struct of zero values).  [Node.Encode]
    stores the mapping node itself, not a document node around it. *)

Module Encode.

Definition str (s : string) : Node := mkNode ScalarNode "!!str" s [] "" "" "".

Definition boolean (b : bool) : Node :=
  mkNode ScalarNode "!!bool" (if b then "true" else "false") [] "" "" "".

Definition mapping (pairs : list Node) : Node :=
  mkNode MappingNode "!!map" "" pairs "" "" "".

Definition sequence (items : list Node) : Node :=
  mkNode SequenceNode "!!seq" "" items "" "" "".

Definition always (key : string) (value : Node) : list Node :=
  [str key; value].

Definition strOmitEmpty (key s : string) : list Node :=
  if String.eqb s "" then [] else [str key; str s].

Definition boolOmitEmpty (key : string) (b : bool) : list Node :=
  if b then [str key; boolean true] else [].

Definition seqOmitEmpty (key : string) (items : list Node) : list Node :=
  match items with
  | [] => []
  | _ :: _ => [str key; sequence items]
  end.

Fixpoint field (f : Field) : Node :=
  mapping
    (always "label" (str (Field.Label f))
     ++ always "name" (str (Field.Name f))
     ++ always "widget" (str (Field.Widget f))
     ++ seqOmitEmpty "modes" (List.map str (Field.Modes f))
     ++ seqOmitEmpty "fields" (List.map field (Field.Fields f))
     ++ boolOmitEmpty "collapsed" (Field.Collapsed f)
     ++ strOmitEmpty "hint" (Field.Hint f)
     ++ strOmitEmpty "placeholder" (Field.Placeholder f)
     ++ boolOmitEmpty "required" (Field.Required f)
     ++ strOmitEmpty "pattern" (Field.Pattern f)
     ++ strOmitEmpty "pattern_msg" (Field.PatternMsg f)).

Definition file (f : File) : Node :=
  mapping
    (always "name" (str (File.Name f))
     ++ always "label" (str (File.Label f))
     ++ always "file" (str (File.File f))
     ++ always "fields" (sequence (List.map field (File.Fields f)))).

Definition editor (e : Editor) : list Node :=
  if Editor.Preview e
  then [str "editor"; mapping (boolOmitEmpty "preview" (Editor.Preview e))]
  else [].

Definition collection (c : Collection) : Node :=
  mapping
    (always "name" (str (Collection.Name c))
     ++ always "label" (str (Collection.Label c))
     ++ strOmitEmpty "folder" (Collection.Folder c)
     ++ boolOmitEmpty "create" (Collection.Create c)
     ++ strOmitEmpty "slug" (Collection.Slug c)
     ++ strOmitEmpty "identifier_field" (Collection.IdentifierField c)
     ++ strOmitEmpty "format" (Collection.Format c)
     ++ strOmitEmpty "extension" (Collection.Extension c)
     ++ editor (Collection.Editor c)
     ++ seqOmitEmpty "files" (List.map file (Collection.Files c))
     ++ seqOmitEmpty "fields" (List.map field (Collection.Fields c))).

End Encode.

(** ** yaml.v3: decoding a node into a [Collection] ([Node.Decode])

    Only the [Folder] of the decoded struct is read by the package.  The
    decoder refuses a mapping in which two keys have the same kind and
    value, leaving the struct untouched; otherwise the folder is the
    value of the first ["folder"] key when that value is a scalar other
    than null.  Every other shape of node leaves the zero value; the
    decoding error is discarded by the caller.  Merge keys and binary
    scalars are not modelled. *)

Fixpoint mappingKeys (content : list Node) : list Node :=
  match content with
  | [] => []
  | k :: after =>
      k :: match after with
           | [] => []
           | _ :: rest => mappingKeys rest
           end
  end.

Definition keyIdentity (k : Node) : NodeKind * string := (Kind k, Value k).

Definition uniqueKeys (content : list Node) : bool :=
  bool_decide (NoDup (keyIdentity <$> mappingKeys content)).

Fixpoint decodeFolderIn (pairs : list Node) : string :=
  match pairs with
  | k :: v :: rest =>
      if String.eqb (Value k) "folder" then
        match Kind v with
        | ScalarNode => if String.eqb (Tag v) "!!null" then "" else Value v
        | _ => ""
        end
      else decodeFolderIn rest
  | _ => ""
  end.

Definition decodeFolder (node : Node) : string :=
  match Kind node with
  | MappingNode =>
      if uniqueKeys (Content node) then decodeFolderIn (Content node) else ""
  | _ => ""
  end.

(** ** model.go: merging a descriptor into the tree *)

Fixpoint findFieldByNameFrom (fieldNodes : list Node) (fieldName : string)
    : result (option Node) :=
  match fieldNodes with
  | [] => Ok None
  | fieldNode :: rest =>
      nameNode ←! findFieldInNode fieldNode "name";
      match nameNode with
      | Some n =>
          if String.eqb (Value n) fieldName then Ok (Some fieldNode)
          else findFieldByNameFrom rest fieldName
      | None => findFieldByNameFrom rest fieldName
      end
  end.

Definition findFieldByName (fieldsNode : Node) (fieldName : string)
    : result (option Node) :=
  findFieldByNameFrom (Content fieldsNode) fieldName.

(** [mergeFields]: the loop over the incoming field nodes, threading the
    existing fields node it appends to. *)
Fixpoint mergeFieldsFrom (newFieldNodes : list Node) (existingFieldsNode : Node)
    : result Node :=
  match newFieldNodes with
  | [] => Ok existingFieldsNode
  | newFieldNode :: rest =>
      nameNode ←! findFieldInNode newFieldNode "name";
      match nameNode with
      | None => Panic
      | Some n =>
          existingFieldNode ←! findFieldByName existingFieldsNode (Value n);
          match existingFieldNode with
          | None =>
              mergeFieldsFrom rest
                (appendContent existingFieldsNode [newFieldNode])
          | Some _ => mergeFieldsFrom rest existingFieldsNode
          end
      end
  end.

Definition mergeFields (existingFieldsNode newFieldsNode : Node) : result Node :=
  mergeFieldsFrom (Content newFieldsNode) existingFieldsNode.

(** [mergeEditor]: the loop over the key/value pairs of the incoming
    editor node. *)
Fixpoint mergeEditorFrom (pairs : list Node) (existingEditorNode : Node)
    : result Node :=
  match pairs with
  | [] => Ok existingEditorNode
  | [_] => Panic
  | k :: value :: rest =>
      existingValue ←! findFieldInNode existingEditorNode (Value k);
      match existingValue with
      | None => mergeEditorFrom rest (appendContent existingEditorNode [k; value])
      | Some _ => mergeEditorFrom rest existingEditorNode
      end
  end.

Definition mergeEditor (existingEditorNode newEditorNode : Node) : result Node :=
  mergeEditorFrom (Content newEditorNode) existingEditorNode.

(** The second loop of [mergeCollectionFields], over the key/value
    pairs it is given.  A value found in the existing node is reached
    through its index, so that merging into it updates the node. *)
Fixpoint mergeAttributes (pairs : list Node) (existingNode : Node)
    : result Node :=
  match pairs with
  | [] => Ok existingNode
  | [_] => Panic
  | k :: value :: rest =>
      j ←! findFieldIndex (Content existingNode) (Value k);
      match j with
      | None => mergeAttributes rest (appendContent existingNode [k; value])
      | Some j =>
          match Content existingNode !! j with
          | None => Panic
          | Some existingValue =>
              if String.eqb (Value k) "fields" then
                merged ←! mergeFields existingValue value;
                mergeAttributes rest (setChild existingNode j merged)
              else if String.eqb (Value k) "editor" then
                merged ←! mergeEditor existingValue value;
                mergeAttributes rest (setChild existingNode j merged)
              else mergeAttributes rest existingNode
          end
      end
  end.

(** [mergeCollectionFields].  The loop runs over
    [tempNode.Content[0].Content], the children of the first child of the
    encoded descriptor. *)
Definition mergeCollectionFields (existingNode : Node) (newColl : Collection)
    : result Node :=
  let tempNode := Encode.collection newColl in
  idFieldValue ←! findFieldInNode existingNode decaptaIDField;
  let existingNode :=
    match idFieldValue with
    | None =>
        if negb (String.eqb (Collection.IdentifierField newColl) "")
        then appendContent existingNode
               [scalarLit decaptaIDField;
                scalarLit (Collection.IdentifierField newColl)]
        else existingNode
    | Some _ => existingNode
    end in
  match Content tempNode with
  | [] => Panic
  | first :: _ => mergeAttributes (Content first) existingNode
  end.

(** The body of the outer loop of [upsertCollections] for one
    descriptor, over the entries of the collections node. *)
Fixpoint upsertCollection (existingNodes : list Node) (newColl : Collection)
    : result (list Node) :=
  match existingNodes with
  | [] => Ok [Encode.collection newColl]
  | existingNode :: rest =>
      if String.eqb (decodeFolder existingNode) (Collection.Folder newColl)
      then
        merged ←! mergeCollectionFields existingNode newColl;
        Ok (merged :: rest)
      else
        rest' ←! upsertCollection rest newColl;
        Ok (existingNode :: rest')
  end.

Fixpoint upsertCollectionsFrom
    (collections : list Collection) (existingNodes : list Node)
    : result (list Node) :=
  match collections with
  | [] => Ok existingNodes
  | newColl :: rest =>
      nodes ←! upsertCollection existingNodes newColl;
      upsertCollectionsFrom rest nodes
  end.

Definition upsertCollections
    (collectionsNode : Node) (collections : list Collection) : result Node :=
  nodes ←! upsertCollectionsFrom collections (Content collectionsNode);
  Ok (setContent collectionsNode nodes).

(** [findOrCreateCollectionsNode] followed by [upsertCollections], as
    [writeCollections] runs them on the parsed document [rootNode]: the
    synchronisation of the tree with the descriptors. *)
Definition synchronize (rootNode : Node) (collections : list Collection)
    : result Node :=
  match Content rootNode with
  | [] => Panic
  | top :: others =>
      j ←! findFieldIndex (Content top) "collections";
      match j with
      | Some j =>
          match Content top !! j with
          | None => Panic
          | Some collectionsNode =>
              updated ←! upsertCollections collectionsNode collections;
              Ok (setContent rootNode (setChild top j updated :: others))
          end
      | None =>
          updated ←! upsertCollections sequenceLit collections;
          Ok (setContent rootNode
                (appendContent top [scalarLit "collections"; updated]
                 :: others))
      end
  end.

(** ** Vocabulary of the statements about synchronisation *)

(** The entries of the collections node of a document, if it has one. *)
Definition collectionsOf (rootNode : Node) : list Node :=
  match Content rootNode with
  | [] => []
  | top :: _ =>
      match findFieldInNode top "collections" with
      | Ok (Some collectionsNode) => Content collectionsNode
      | _ => []
      end
  end.

(** A mapping node as the YAML parser builds it: keys and values in
    pairs. *)
Definition isMapping (node : Node) : Prop :=
  Kind node = MappingNode ∧ Nat.even (length (Content node)) = true.

(** A configuration document tree in the sense of the data model: a
    document whose root is a mapping and whose collections sequence, when
    present, holds one mapping node per data source. *)
Definition configTree (rootNode : Node) : Prop :=
  match Content rootNode with
  | [] => False
  | top :: _ => isMapping top ∧ Forall isMapping (collectionsOf rootNode)
  end.

(** A descriptor that names an identifier field also carries a slug
    template, as every descriptor built by [csvCollection] does;
    [arbCollection] names no identifier field. *)
Definition carriesSlugTemplate (d : Collection) : Prop :=
  Collection.IdentifierField d ≠ "" → Collection.Slug d ≠ "".

(** The identifier attributes appended to an entry, one key/value pair
    per identifier. *)
Definition identifierPairs (ids : list string) : list Node :=
  ids ≫= fun v => [scalarLit decaptaIDField; scalarLit v].

(** [node'] is [node] with at most identifier attributes appended, and
    none when [node] already has one: every child of [node] is a child
    of [node'] at the same place. *)
Definition keepsEntry (node node' : Node) : Prop :=
  ∃ ids,
    node' = appendContent node (identifierPairs ids)
    ∧ (∀ v, findFieldInNode node decaptaIDField = Ok (Some v) → ids = []).

(** Every entry of [nodes] is kept, at its place, in [nodes']. *)
Definition keepsEntries (nodes nodes' : list Node) : Prop :=
  ∀ i node, nodes !! i = Some node →
    ∃ node', nodes' !! i = Some node' ∧ keepsEntry node node'.

(** The part of an encoded struct that one field gives: nothing when
    the field is omitted, else the key and a value. *)
Definition attribute (key : string) (segment : list Node) : Prop :=
  segment = [] ∨ ∃ v, segment = [Encode.str key; v].

(** The keys a [Collection] can be encoded with, in order. *)
Definition collectionKeys : list string :=
  ["name"; "label"; "folder"; "create"; "slug"; "identifier_field";
   "format"; "extension"; "editor"; "files"; "fields"].

(** Upserting [d] into [nodes] changes nothing. *)
Definition settledIn (nodes : list Node) (d : Collection) : Prop :=
  upsertCollection nodes d = Ok nodes.

(** A collection entry whose display label has been edited to [label]. *)
Definition relabel (node : Node) (label : string) : Node :=
  match findFieldIndex (Content node) "label" with
  | Ok (Some j) => setChild node j (Encode.str label)
  | _ => node
  end.

(** The text of the scalar that the mapping [node] holds under [key],
    as [findFieldInNode] finds it. *)
Definition scalarAt (node : Node) (key : string) : option string :=
  match findFieldInNode node key with
  | Ok (Some value) => Some (Value value)
  | _ => None
  end.

(** Two nodes that differ at most in their children: same kind, tag,
    value and comments. *)
Definition sameAttributes (a b : Node) : Prop :=
  Kind a = Kind b ∧ Tag a = Tag b ∧ Value a = Value b
  ∧ HeadComment a = HeadComment b ∧ LineComment a = LineComment b
  ∧ FootComment a = FootComment b.

(** The file name group of a translation descriptor. *)
Definition fileGroup (d : Collection) : list string :=
  File.File <$> Collection.Files d.

(** ** csv.go: the schema descriptor of a table

    [strconv.ParseFloat] and [time.Parse] are not modelled: whether a
    cell parses as a float, and whether it parses under one of the five
    date layouts of [parseDate], are the two parameters of this
    section. *)

Section CSVConfig.

Variable parsesAsFloat : string → bool.
Variable parsesAsDate : string → bool.

Definition isBooleanWord (value : string) : bool :=
  let lowerValue := ToLower value in
  String.eqb lowerValue "true" || String.eqb lowerValue "false"
  || String.eqb lowerValue "yes" || String.eqb lowerValue "no".

(** The flags [isMultilineText], [isFloat], [isBoolean], [isDate] after
    the loop of [detectFieldType]. *)
Definition detectFlags (records : list (list string)) (colIndex : nat)
    : bool * bool * bool * bool :=
  fold_left
    (fun '(isMultilineText, isFloat, isBoolean, isDate) record =>
       match record !! colIndex with
       | None => (isMultilineText, isFloat, isBoolean, isDate)
       | Some value =>
           (isMultilineText || ContainsNewline value,
            isFloat && parsesAsFloat value,
            isBoolean && isBooleanWord value,
            isDate && parsesAsDate value)
       end)
    records (false, true, true, true).

Definition detectFieldType (records : list (list string)) (colIndex : nat)
    : string :=
  let '(isMultilineText, isFloat, isBoolean, isDate) :=
    detectFlags records colIndex in
  if isMultilineText then "markdown"
  else if isBoolean then "boolean"
  else if isDate then "datetime"
  else if isFloat then "number"
  else "string".

Definition decaptaIDFieldDescriptor : Field :=
  Field.mk "Decapta ID" decaptaIDField "string" [] [] false "" "" true "" "".

Definition headerField (rows : list (list string)) (colIndex : nat)
    (header : string) : Field :=
  let fieldType := detectFieldType rows colIndex in
  Field.mk header (addPrefixIfReserved header) fieldType
    (if String.eqb fieldType "markdown" then ["raw"] else [])
    [] false "" "" false "" "".

(** The [Collection] that [CSVGenerateConfig] builds for the file
    [csvName.csv] whose parsed content is [headers :: rows]. *)
Definition csvCollection (contentDir csvName : string)
    (headers : list string) (rows : list (list string)) : Collection :=
  let csvContentDir := GoFilepath.Join contentDir csvName in
  let fields :=
    decaptaIDFieldDescriptor :: imap (headerField rows) headers in
  Collection.mk
    ("csv_" +:+ csvName) ("CSV Data (" +:+ csvName +:+ ")")
    csvContentDir true "{{slug}}" decaptaIDField "yaml" "yaml"
    (Editor.mk false) [] fields.

(** The collections gathered by the file loop of [CSVGenerateConfig]
    from the directory listing [files] (file name and parsed records). *)
Definition csvCollections (contentDir : string) (ignoredFiles : list string)
    (files : list (string * list (list string))) : list Collection :=
  omap
    (fun '(name, records) =>
       if bool_decide (name ∈ ignoredFiles) then None
       else if negb (HasSuffix name ".csv") then None
       else
         match records with
         | [] => None
         | headers :: rows =>
             Some (csvCollection contentDir (TrimSuffix name ".csv")
                     headers rows)
         end)
    files.

(** [writeCollections] starts from the existing configuration document
    when there is one and from the template otherwise. *)
Definition loadRootNode (existingConfig : option Node) (template : Node) : Node :=
  match existingConfig with
  | Some rootNode => rootNode
  | None => template
  end.

Definition CSVGenerateConfig (contentDir : string) (ignoredFiles : list string)
    (files : list (string * list (list string)))
    (existingConfig : option Node) (template : Node) : result Node :=
  synchronize (loadRootNode existingConfig template)
    (csvCollections contentDir ignoredFiles files).

End CSVConfig.

(** A path element that [filepath.Clean] keeps as it is: not empty, not
    [.] or [..], and without separator. *)
Definition plainElement (s : string) : Prop :=
  s ≠ "" ∧ s ≠ "." ∧ s ≠ ".." ∧ "/"%char ∉ list_ascii_of_string s.

(** A relative path made of plain elements joined by single separators.
    [filepath.Clean] returns such a path unchanged, so that
    [filepath.Join] of it with a plain element is the two joined by a
    separator, as [GoFilepath.Join] has it. *)
Definition plainPath (path : string) : Prop :=
  Forall plainElement (Split path "/").

(** The cells of column [colIndex], of the records that reach it. *)
Definition columnCells (records : list (list string)) (colIndex : nat)
    : list string :=
  omap (fun record : list string => record !! colIndex) records.

(** ** arb.go: ordered documents

    A decoded JSON value ([interface{}]): numbers are kept as integers
    and objects as their member lists, which is enough for values that
    are only carried along. *)

Inductive JSON :=
  | JNull
  | JBool (b : bool)
  | JNumber (n : Z)
  | JString (s : string)
  | JArray (items : list JSON)
  | JObject (members : list (string * JSON)).

Module KVPair.
Record t := mk { Key : string; Value : JSON }.
End KVPair.
Abbreviation KVPair := KVPair.t.

Abbreviation OrderedMap := (list KVPair).

(** [encoding/json]: an object decoded into a [map[string]interface{}]
    keeps the last member of each name; a map is written with its keys
    in increasing byte-wise order. *)
Module GoJSON.

Definition UnmarshalMap (members : list (string * JSON)) : gmap string JSON :=
  fold_left (fun m '(k, v) => <[k := v]> m) members ∅.

Definition MarshalMap (m : gmap string JSON) : list (string * JSON) :=
  GoSort.Slice (fun a b => String.ltb a.1 b.1) (map_to_list m).

End GoJSON.

(** [OrderedMap.UnmarshalJSON]: the entries of the decoded map in the
    order [rangeOrder] in which the [range] statement visits them; Go
    leaves that order unspecified. *)
Definition UnmarshalJSON
    (rangeOrder : gmap string JSON → list (string * JSON))
    (data : list (string * JSON)) : OrderedMap :=
  let tempMap := GoJSON.UnmarshalMap data in
  fold_left (fun om '(key, value) => om ++ [KVPair.mk key value])
    (rangeOrder tempMap) [].

(** [OrderedMap.MarshalJSON]: the members of the JSON object written, in
    the order they are written. *)
Definition MarshalJSON (om : OrderedMap) : list (string * JSON) :=
  let tempMap :=
    fold_left (fun m kv => <[KVPair.Key kv := KVPair.Value kv]> m) om
      (∅ : gmap string JSON) in
  GoJSON.MarshalMap tempMap.

(** [OrderedMap.Get] *)
Fixpoint Get (om : OrderedMap) (key : string) : option JSON :=
  match om with
  | [] => None
  | kv :: rest =>
      if String.eqb (KVPair.Key kv) key then Some (KVPair.Value kv)
      else Get rest key
  end.

(** ** arb.go: forward and reverse conversion of a translation file

    A value of the content document: the mapping written for one
    translation key, or anything else an editor may have put there. *)

Inductive FrontValue :=
  | Entry (fields : gmap string JSON)
  | Plain (v : JSON).

(** The body of the entry loop of [ARBPreProcess]; [arbData] is the whole
    parsed file, in which the metadata of the entry is looked up. *)
Definition frontMatterEntry (arbData : OrderedMap)
    (frontMatter : gmap string FrontValue) (kv : KVPair)
    : gmap string FrontValue :=
  let key := KVPair.Key kv in
  let value := KVPair.Value kv in
  if HasPrefix key "@" then frontMatter
  else
    let translationEntry : gmap string JSON := {[ "value" := value ]} in
    let metadataKey := "@" +:+ key in
    let translationEntry :=
      match Get arbData metadataKey with
      | Some metadataValue => <["metadata" := metadataValue]> translationEntry
      | None => translationEntry
      end in
    <[key := Entry translationEntry]> frontMatter.

(** The front matter that [ARBPreProcess] builds from the parsed file
    and hands to the YAML encoder. *)
Definition ARBPreProcess (arbData : OrderedMap) : gmap string FrontValue :=
  fold_left (frontMatterEntry arbData) arbData ∅.

(** A content document on disk lists its keys in some order.
    [YAMLToMapStringInterface] decodes it into a map; a key listed twice
    is a decoding error. *)
Definition YAMLToMapStringInterface (document : list (string * FrontValue))
    : option (gmap string FrontValue) :=
  if bool_decide (NoDup document.*1) then Some (list_to_map document)
  else None.

Definition getOrderedKeys {X} (data : gmap string X) : list string :=
  let keys := (map_to_list data).*1 in
  GoSort.Strings keys.

(** The loop of [ARBPostProcess] that rebuilds [arbData]; [None] is the
    error returned for a value that is not a mapping. *)
Fixpoint rebuildArbData (frontMatter : gmap string FrontValue)
    (keys : list string) (arbData : OrderedMap) : option OrderedMap :=
  match keys with
  | [] => Some arbData
  | key :: rest =>
      match frontMatter !! key with
      | Some (Entry entry) =>
          let value := default JNull (entry !! "value") in
          let arbData := arbData ++ [KVPair.mk key value] in
          let arbData :=
            match entry !! "metadata" with
            | Some metadata => arbData ++ [KVPair.mk ("@" +:+ key) metadata]
            | None => arbData
            end in
          rebuildArbData frontMatter rest arbData
      | _ => None
      end
  end.

(** [ARBPostProcess] on one content document: the members of the ARB
    file written, in order. *)
Definition ARBPostProcess (document : list (string * FrontValue))
    : option (list (string * JSON)) :=
  match YAMLToMapStringInterface document with
  | None => None
  | Some frontMatter =>
      match rebuildArbData frontMatter (getOrderedKeys frontMatter) [] with
      | None => None
      | Some arbData => Some (MarshalJSON arbData)
      end
  end.

(** The [Collection] literal of [ARBGenerateConfig] for one language,
    with the field list [fields] that its loop over the content keys
    appends to the single file entry. *)
Definition arbCollection (contentDir language : string) (fields : list Field)
    : Collection :=
  Collection.mk
    ("translations_" +:+ language)
    ("Translations (" +:+ ToUpper language +:+ ")")
    "" false "" "" "" "" (Editor.mk false)
    [File.mk ("translation_" +:+ language)
       ("Translation (" +:+ ToUpper language +:+ ")")
       (GoFilepath.Join contentDir (language +:+ ".yaml"))
       fields]
    [].

(** [extractLanguage]: the part of the file name, without directory and
    extension, after its last underscore; empty when it has none. *)
Definition extractLanguage (filename : string) : string :=
  let base := GoFilepath.Base filename in
  let ext := GoFilepath.Ext base in
  let parts := Split (TrimSuffix base ext) "_" in
  if (1 <? length parts)%nat then List.last parts "" else "".

(** [fmt.Sprintf("app_%s.arb", language)], the name [ARBPostProcess]
    writes the file of a language under. *)
Definition arbFileName (language : string) : string :=
  "app_" +:+ language +:+ ".arb".

(** ** main.go: the [--slug] flag *)

Definition slugFieldList (slugFields : string) : list string :=
  if String.eqb slugFields "" then [] else Split slugFields ",".

(** ** Vocabulary of the statements about translation files *)

Definition pairOf (kv : KVPair) : string * JSON :=
  (KVPair.Key kv, KVPair.Value kv).

(** The mapping stored for a translation with value [value] and
    metadata [metadata]. *)
Definition translationEntry (value : JSON) (metadata : option JSON)
    : gmap string JSON :=
  match metadata with
  | Some metadataValue => <["metadata" := metadataValue]> {[ "value" := value ]}
  | None => {[ "value" := value ]}
  end.

(** What the front matter built from the decoded file [m] holds under
    [key]. *)
Definition frontMatterOf (m : gmap string JSON) (key : string)
    : option FrontValue :=
  if HasPrefix key "@" then None
  else
    match m !! key with
    | Some value => Some (Entry (translationEntry value (m !! ("@" +:+ key))))
    | None => None
    end.

(** The entries that [ARBPostProcess] writes for the key [key]. *)
Definition entryPairs (frontMatter : gmap string FrontValue) (key : string)
    : list KVPair :=
  match frontMatter !! key with
  | Some (Entry entry) =>
      KVPair.mk key (default JNull (entry !! "value"))
      :: match entry !! "metadata" with
         | Some metadata => [KVPair.mk ("@" +:+ key) metadata]
         | None => []
         end
  | _ => []
  end.

(** Every key that starts with ["@"] is the metadata key ["@" ++ k] of a
    key [k] of the file that does not start with ["@"]. *)
Definition annotated (data : list (string * JSON)) : Prop :=
  ∀ key, key ∈ data.*1 → HasPrefix key "@" = true →
    ∃ base, key = "@" +:+ base ∧ HasPrefix base "@" = false ∧ base ∈ data.*1.

(** ** A sample table and a sample hand-edited document

    [sampleDocument] is the tree of a configuration file with a comment,
    a backend setting and one collection for the folder [content/people]
    whose label was renamed and which holds a field added by hand. *)

Definition sampleTable : list (list string) :=
  [["name"; "data"]; ["Alice"; "x"]; ["Bob"; "y"]].

Definition sampleDescriptors : list Collection :=
  csvCollections (fun _ => false) (fun _ => false) "content" []
    [("people.csv", sampleTable)].

Definition sampleCollectionNode : Node :=
  Encode.mapping
    [Encode.str "name"; Encode.str "csv_people";
     Encode.str "label"; Encode.str "Team members";
     Encode.str "folder"; Encode.str "content/people";
     Encode.str "fields";
     Encode.sequence
       [Encode.mapping
          [Encode.str "label"; Encode.str "Notes";
           Encode.str "name"; Encode.str "notes";
           Encode.str "widget"; Encode.str "text"]]].

Definition sampleDocument : Node :=
  mkNode DocumentNode "" ""
    [mkNode MappingNode "!!map" ""
       [Encode.str "backend"; Encode.mapping [Encode.str "name"; Encode.str "git-gateway"];
        Encode.str "collections"; Encode.sequence [sampleCollectionNode]]
       "# site configuration" "" ""]
    "" "" "".

(** The field list of [sampleCollectionNode], and an incoming field list
    that brings the identifier field and another definition of [notes]. *)
Definition sampleFieldsNode : Node :=
  Encode.sequence
    [Encode.mapping
       [Encode.str "label"; Encode.str "Notes";
        Encode.str "name"; Encode.str "notes";
        Encode.str "widget"; Encode.str "text"]].

Definition sampleIncomingFieldsNode : Node :=
  Encode.sequence
    [Encode.field decaptaIDFieldDescriptor;
     Encode.mapping
       [Encode.str "label"; Encode.str "notes";
        Encode.str "name"; Encode.str "notes";
        Encode.str "widget"; Encode.str "string"]].

(** An editor setting written by hand, and an incoming one. *)
Definition sampleEditorNode : Node :=
  Encode.mapping [Encode.str "preview"; Encode.boolean false].

Definition sampleIncomingEditorNode : Node :=
  Encode.mapping
    [Encode.str "preview"; Encode.boolean true;
     Encode.str "visualEditing"; Encode.boolean true].

(** A template without collections. *)
Definition sampleTemplate : Node :=
  mkNode DocumentNode "" ""
    [Encode.mapping
       [Encode.str "backend";
        Encode.mapping [Encode.str "name"; Encode.str "git-gateway"]]]
    "" "" "".

(** * Properties *)

(** ** Strings *)

Lemma stripPrefix_app p s : stripPrefix p (p +:+ s) = Some s.
Proof.
  induction p as [|a p IH]; simpl; [reflexivity|].
  rewrite Ascii.eqb_refl. exact IH.
Qed.

Lemma stripPrefix_Some p s r : stripPrefix p s = Some r → s = p +:+ r.
Proof.
  revert s. induction p as [|a p IH]; intros s; simpl.
  - intros [= ->]. reflexivity.
  - destruct s as [|b s]; [discriminate|].
    destruct (Ascii.eqb a b) eqn:E; [|discriminate].
    apply Ascii.eqb_eq in E as ->. intros H.
    rewrite (IH _ H). reflexivity.
Qed.

Lemma isReserved_data name : isReserved name = true ↔ name = "data".
Proof.
  unfold isReserved, reservedFields. split.
  - destruct (decide (name = "data")) as [->|Hne]; [done|].
    rewrite lookup_singleton_ne by done. discriminate.
  - intros ->. by rewrite lookup_singleton_eq.
Qed.

(** ** Reserved names *)

Lemma reserved_prefix_bijection_total name :
  isReserved name = true →
  removePrefixIfReserved (addPrefixIfReserved name) = name.
Proof.
  intros Hres. unfold addPrefixIfReserved. rewrite Hres.
  unfold removePrefixIfReserved, HasPrefix, TrimPrefix.
  rewrite stripPrefix_app, Hres. reflexivity.
Qed.

(** C6. Reserved-name aliasing: on a reserved name, removing the prefix
    after adding it gives the name back; on any other name, adding the
    prefix changes nothing. *)
Theorem reserved_prefix_bijection (name : string) :
  (isReserved name = true →
     removePrefixIfReserved (addPrefixIfReserved name) = name)
  ∧ (isReserved name = false → addPrefixIfReserved name = name).
Proof.
  split; [apply reserved_prefix_bijection_total|].
  intros Hres. unfold addPrefixIfReserved. by rewrite Hres.
Qed.

Lemma reserved_prefix_bijection_witness :
  removePrefixIfReserved (addPrefixIfReserved "data") = "data"
  ∧ addPrefixIfReserved "name" = "name".
Proof.
  split.
  - apply (proj1 (reserved_prefix_bijection "data")). reflexivity.
  - apply (proj2 (reserved_prefix_bijection "name")). reflexivity.
Defined.

(** ** Identifier synthesis *)

Lemma slugParts_fold (data : gmap string string) fields acc :
  fold_left
    (fun parts field =>
       match data !! field with
       | Some value => parts ++ [value]
       | None => parts
       end) fields acc
  = acc ++ omap (fun field => data !! field) fields.
Proof.
  revert acc. induction fields as [|f fields IH]; intros acc; simpl.
  - by rewrite app_nil_r.
  - rewrite IH. destruct (data !! f); [|done]. by rewrite <- app_assoc.
Qed.

Lemma generateIdentifierField_omap (data : gmap string string) fields :
  generateIdentifierField data fields
  = Join (omap (fun field => data !! field) fields) "-".
Proof. unfold generateIdentifierField. by rewrite slugParts_fold. Qed.


(** ** Sorting *)

Section SliceFacts.

Context {A : Type} (less : A → A → bool).

Lemma insert_Permutation x l : GoSort.insert less x l ≡ₚ x :: l.
Proof.
  induction l as [|y l IH]; simpl; [done|].
  destruct (less x y); [done|].
  rewrite IH. apply Permutation_swap.
Qed.

Lemma Slice_fold_Permutation l acc :
  fold_left (fun sorted e => GoSort.insert less e sorted) l acc ≡ₚ acc ++ l.
Proof.
  revert acc. induction l as [|x l IH]; intros acc; simpl.
  - by rewrite app_nil_r.
  - rewrite IH, insert_Permutation. simpl. apply Permutation_middle.
Qed.

Lemma Slice_Permutation l : GoSort.Slice less l ≡ₚ l.
Proof. unfold GoSort.Slice. by rewrite Slice_fold_Permutation. Qed.

End SliceFacts.

Section SliceByKey.

Context {A : Type} (key : A → Z).

Let less := GoSort.keyLess key.
Let le := GoSort.keyLe key.

Lemma insert_keySorted x l :
  StronglySorted le l → StronglySorted le (GoSort.insert less x l).
Proof.
  induction 1 as [|y l Hl IH Hy]; simpl.
  - repeat constructor.
  - unfold less at 1, GoSort.keyLess.
    destruct (Z.ltb_spec (key x) (key y)) as [Hlt|Hge].
    + constructor; [by constructor|].
      constructor; [unfold le, GoSort.keyLe; lia|].
      eapply Forall_impl; [exact Hy|].
      unfold le, GoSort.keyLe. intros z Hz. lia.
    + constructor; [exact IH|].
      rewrite (insert_Permutation less x l). by constructor.
Qed.

Lemma Slice_fold_keySorted l acc :
  StronglySorted le acc →
  StronglySorted le
    (fold_left (fun sorted e => GoSort.insert less e sorted) l acc).
Proof.
  revert acc. induction l as [|x l IH]; intros acc Hacc; simpl; [done|].
  by apply IH, insert_keySorted.
Qed.

Lemma Slice_keySorted l :
  StronglySorted (GoSort.keyLe key) (GoSort.Slice (GoSort.keyLess key) l).
Proof. apply Slice_fold_keySorted. constructor. Qed.

(** A list with pairwise distinct keys has one arrangement in key order. *)
Lemma keySorted_unique l1 l2 :
  NoDup (key <$> l1) →
  StronglySorted (GoSort.keyLe key) l1 →
  StronglySorted (GoSort.keyLe key) l2 →
  l1 ≡ₚ l2 → l1 = l2.
Proof.
  intros Hnd H1 H2 Hp.
  apply (StronglySorted_unique_strong (GoSort.keyLe key)); [|done..].
  intros x1 x2 Hx1 Hx2 Hle1 Hle2.
  rewrite <- Hp in Hx2.
  assert (key x1 = key x2) as Hk by (unfold GoSort.keyLe in *; lia).
  apply list_elem_of_lookup in Hx1 as [i Hi], Hx2 as [j Hj].
  assert (i = j) as ->.
  { eapply NoDup_lookup; [exact Hnd| |];
      rewrite list_lookup_fmap; [by rewrite Hi | by rewrite Hj, Hk]. }
  congruence.
Qed.

End SliceByKey.

(** ** Order of the rows in the reverse conversion *)

Example extractFileNumber_samples :
  extractFileNumber <$> ["1.yaml"; "10.yaml"; "007.yaml"; "+7.yaml";
                         "-5.yaml"; "x.yaml"; ".yaml"; "1.5.yaml";
                         "9223372036854775808.yaml"]
  = [1; 10; 7; 7; -5; -1; -1; -1; -1]%Z.
Proof. vm_compute. reflexivity. Qed.

Lemma sortedFiles_Permutation {X} (files : gmap string X) :
  sortedFiles files ≡ₚ map_to_list files.
Proof.
  unfold sortedFiles, ReadDir. by rewrite !Slice_Permutation.
Qed.

Lemma sortedFiles_sorted {X} (files : gmap string X) :
  StronglySorted (GoSort.keyLe (fun f => extractFileNumber f.1))
    (sortedFiles files).
Proof. apply Slice_keySorted. Qed.

Lemma extractFileNumber_invalid name :
  GoStrconv.Atoi (fileStem name) = None → extractFileNumber name = (-1)%Z.
Proof. unfold extractFileNumber. by intros ->. Qed.

Lemma StronglySorted_lookup_lt {A} (R : relation A) l i j x y :
  StronglySorted R l → l !! i = Some x → l !! j = Some y → i < j → R x y.
Proof.
  intros Hs. revert i j. induction Hs as [|z l Hs IH Hz]; intros i j Hi Hj Hlt.
  - by rewrite lookup_nil in Hi.
  - destruct i as [|i], j as [|j]; simpl in *; try lia.
    + injection Hi as ->. rewrite Forall_forall in Hz.
      apply Hz. by eapply list_elem_of_lookup_2.
    + eapply IH; eauto with lia.
Qed.

Lemma StronglySorted_filter {A} (R : relation A) (P : A → Prop)
    `{!∀ x, Decision (P x)} l :
  StronglySorted R l → StronglySorted R (filter P l).
Proof.
  induction 1 as [|x l Hs IH Hx]; [constructor|].
  rewrite filter_cons. destruct (decide (P x)); [|done].
  constructor; [done|].
  rewrite Forall_forall in Hx |- *. intros y Hy.
  apply Hx. by apply list_elem_of_filter in Hy as [_ ?].
Qed.


(** ** File names of per-entity documents *)

Lemma list_ascii_of_string_app a b :
  list_ascii_of_string (a +:+ b)
  = list_ascii_of_string a ++ list_ascii_of_string b.
Proof. induction a as [|c a IH]; simpl; [done|]. by rewrite IH. Qed.

Lemma string_of_list_ascii_app l1 l2 :
  string_of_list_ascii (l1 ++ l2)
  = string_of_list_ascii l1 +:+ string_of_list_ascii l2.
Proof. induction l1 as [|c l1 IH]; simpl; [done|]. by rewrite IH. Qed.

Lemma rev_string_app a b : rev_string (a +:+ b) = rev_string b +:+ rev_string a.
Proof.
  unfold rev_string.
  by rewrite list_ascii_of_string_app, rev_app_distr, string_of_list_ascii_app.
Qed.

Lemma rev_string_involutive s : rev_string (rev_string s) = s.
Proof.
  unfold rev_string.
  by rewrite list_ascii_of_string_of_list_ascii, rev_involutive,
    string_of_list_ascii_of_string.
Qed.

Lemma HasSuffix_app s suf : HasSuffix (s +:+ suf) suf = true.
Proof.
  unfold HasSuffix, HasPrefix. by rewrite rev_string_app, stripPrefix_app.
Qed.

Lemma TrimSuffix_app s suf : TrimSuffix (s +:+ suf) suf = s.
Proof.
  unfold TrimSuffix, TrimPrefix.
  by rewrite rev_string_app, stripPrefix_app, rev_string_involutive.
Qed.

Lemma Ext_yaml s : GoFilepath.Ext (s +:+ ".yaml") = ".yaml".
Proof.
  unfold GoFilepath.Ext.
  by rewrite list_ascii_of_string_app, rev_app_distr.
Qed.

Lemma fileStem_yaml s : fileStem (s +:+ ".yaml") = s.
Proof. unfold fileStem. by rewrite Ext_yaml, TrimSuffix_app. Qed.

Lemma Atoi_unsigned c r :
  c ≠ "-"%char → c ≠ "+"%char →
  GoStrconv.Atoi (String c r)
  = match NilEmpty.uint_of_string (String c r) with
    | Some d =>
        if ((GoStrconv.minInt <=? Z.of_uint d)
            && (Z.of_uint d <=? GoStrconv.maxInt))%Z
        then Some (Z.of_uint d) else None
    | None => None
    end.
Proof.
  intros Hm Hp. unfold GoStrconv.Atoi.
  destruct c as [[] [] [] [] [] [] [] []]; try reflexivity; congruence.
Qed.

(** [Atoi] reads back what [%d] prints for a positive [int]. *)
Lemma Atoi_uint (d : Decimal.uint) :
  d ≠ Decimal.Nil →
  (Z.of_uint d ≤ GoStrconv.maxInt)%Z →
  GoStrconv.Atoi (NilEmpty.string_of_uint d) = Some (Z.of_uint d).
Proof.
  intros Hd Hmax.
  assert (0 ≤ Z.of_uint d)%Z as Hpos.
  { unfold Z.of_uint. lia. }
  assert (∀ c r, NilEmpty.string_of_uint d = String c r →
            c ≠ "-"%char → c ≠ "+"%char →
            GoStrconv.Atoi (NilEmpty.string_of_uint d) = Some (Z.of_uint d))
    as Hgo.
  { intros c r Heq Hm Hp.
    rewrite Heq, Atoi_unsigned, <- Heq, NilEmpty.usu by done.
    assert ((GoStrconv.minInt <=? Z.of_uint d)%Z = true) as ->.
    { apply Z.leb_le. unfold GoStrconv.minInt. lia. }
    assert ((Z.of_uint d <=? GoStrconv.maxInt)%Z = true) as ->
      by by apply Z.leb_le.
    done. }
  destruct d; try done; eapply Hgo; simpl; done.
Qed.

Lemma Atoi_Itoa (n : Z) :
  (0 < n ≤ GoStrconv.maxInt)%Z → GoStrconv.Atoi (GoStrconv.Itoa n) = Some n.
Proof.
  intros [Hpos Hmax]. destruct n as [|p|p]; try lia.
  unfold GoStrconv.Itoa. simpl.
  assert (Z.of_uint (Pos.to_uint p) = Z.pos p) as Hz.
  { pose proof (DecimalZ.of_to (Z.pos p)) as H. exact H. }
  assert (Pos.to_uint p ≠ Decimal.Nil) as Hnil.
  { intros Heq. rewrite Heq in Hz. discriminate. }
  unfold NilZero.string_of_uint.
  destruct (Pos.to_uint p) eqn:E; try done;
    rewrite <- Hz; apply Atoi_uint; try done; by rewrite Hz.
Qed.

Lemma extractFileNumber_entityFileName (i : nat) :
  (Z.of_nat i < GoStrconv.maxInt)%Z →
  extractFileNumber (entityFileName i) = (Z.of_nat i + 1)%Z.
Proof.
  intros Hi. unfold extractFileNumber, entityFileName.
  rewrite fileStem_yaml, Atoi_Itoa; [done|lia].
Qed.

(** ** Round trip of a table *)

Lemma addPrefixIfReserved_idem h :
  addPrefixIfReserved (addPrefixIfReserved h) = addPrefixIfReserved h.
Proof.
  unfold addPrefixIfReserved at 2 3.
  destruct (isReserved h) eqn:E; [|by unfold addPrefixIfReserved; rewrite E].
  apply isReserved_data in E as ->. reflexivity.
Qed.

Lemma addPrefixIfReserved_id_field h :
  addPrefixIfReserved h = decaptaIDField ↔ h = decaptaIDField.
Proof.
  unfold addPrefixIfReserved.
  destruct (isReserved h) eqn:E; [|done].
  apply isReserved_data in E as ->. split; discriminate.
Qed.

Lemma removePrefix_addPrefix h :
  h ≠ decaptaPrefix +:+ "data" →
  removePrefixIfReserved (addPrefixIfReserved h) = h.
Proof.
  intros Hne. destruct (isReserved h) eqn:E.
  - by apply reserved_prefix_bijection_total.
  - unfold addPrefixIfReserved. rewrite E.
    unfold removePrefixIfReserved, HasPrefix, TrimPrefix.
    destruct (stripPrefix decaptaPrefix h) as [r|] eqn:Hs; [|done].
    destruct (isReserved r) eqn:Er; [|done]. exfalso.
    apply stripPrefix_Some in Hs. apply isReserved_data in Er. congruence.
Qed.

Lemma addPrefixIfReserved_NoDup headers :
  NoDup headers → decaptaPrefix +:+ "data" ∉ headers →
  NoDup (addPrefixIfReserved <$> headers).
Proof.
  intros Hnd Hnot. apply NoDup_fmap_2_strong; [|done].
  intros x y Hx Hy Heq.
  rewrite <- (removePrefix_addPrefix x), <- (removePrefix_addPrefix y);
    [by rewrite Heq | by intros -> ..].
Qed.

Lemma rowData_snoc headers row v :
  rowData headers (row ++ [v])
  = match headers !! length row with
    | Some header => <[addPrefixIfReserved header := v]> (rowData headers row)
    | None => rowData headers row
    end.
Proof.
  unfold rowData. rewrite imap_app, fold_left_app. simpl.
  by rewrite Nat.add_0_r.
Qed.

Lemma rowData_lookup headers row j h v :
  NoDup (addPrefixIfReserved <$> headers) →
  headers !! j = Some h → row !! j = Some v →
  rowData headers row !! addPrefixIfReserved h = Some v.
Proof.
  intros Hnd Hh. revert v.
  induction row as [|v' row IH] using rev_ind; intros v Hv.
  - by rewrite lookup_nil in Hv.
  - rewrite rowData_snoc.
    destruct (decide (j = length row)) as [->|Hne].
    + rewrite Hh. rewrite list_lookup_middle in Hv by done.
      injection Hv as ->. apply lookup_insert_eq.
    + assert (j < length row) as Hlt.
      { apply lookup_lt_Some in Hv. rewrite length_app in Hv. simpl in Hv. lia. }
      rewrite lookup_app_l in Hv by done.
      destruct (headers !! length row) as [h'|] eqn:Hh'; [|by apply IH].
      rewrite lookup_insert_ne; [by apply IH|].
      intros Heq. apply Hne.
      eapply NoDup_lookup; [exact Hnd| |];
        rewrite list_lookup_fmap; [by rewrite Hh | rewrite Hh'; simpl; congruence].
Qed.

Section ForwardFiles.

Variables headers slugFields : list string.

Let document (record : list string) : gmap string string :=
  rowDocument headers record slugFields.

Let written (rows : list (list string)) : list (string * gmap string string) :=
  imap (fun i record => (entityFileName i, document record)) rows.

Lemma writeEntityFiles_snoc rows record files :
  writeEntityFiles headers slugFields (rows ++ [record]) files
  = <[entityFileName (length rows) := document record]>
      (writeEntityFiles headers slugFields rows files).
Proof.
  unfold writeEntityFiles. rewrite imap_app, fold_left_app. simpl.
  by rewrite Nat.add_0_r.
Qed.

Lemma writeEntityFiles_lookup rows name doc :
  writeEntityFiles headers slugFields rows ∅ !! name = Some doc →
  ∃ i, i < length rows ∧ name = entityFileName i.
Proof.
  induction rows as [|record rows IH] using rev_ind.
  - unfold writeEntityFiles. simpl. by rewrite lookup_empty.
  - rewrite writeEntityFiles_snoc, length_app. simpl.
    destruct (decide (entityFileName (length rows) = name)) as [<-|Hne].
    + intros _. exists (length rows). split; [lia|done].
    + rewrite lookup_insert_ne by done. intros H.
      destruct (IH H) as (i & Hi & ->). exists i. split; [lia|done].
Qed.

Lemma entityFileName_inj i j :
  (Z.of_nat i < GoStrconv.maxInt)%Z → (Z.of_nat j < GoStrconv.maxInt)%Z →
  entityFileName i = entityFileName j → i = j.
Proof.
  intros Hi Hj Heq.
  pose proof (extractFileNumber_entityFileName i Hi) as H1.
  pose proof (extractFileNumber_entityFileName j Hj) as H2.
  rewrite Heq in H1. lia.
Qed.

Lemma writeEntityFiles_to_list rows :
  (Z.of_nat (length rows) ≤ GoStrconv.maxInt)%Z →
  map_to_list (writeEntityFiles headers slugFields rows ∅) ≡ₚ written rows.
Proof.
  induction rows as [|record rows IH] using rev_ind; intros Hlen.
  - unfold writeEntityFiles. simpl. by rewrite map_to_list_empty.
  - rewrite length_app in Hlen. simpl in Hlen.
    rewrite writeEntityFiles_snoc, map_to_list_insert.
    + rewrite IH by lia. unfold written. rewrite imap_app. simpl.
      rewrite Nat.add_0_r. by rewrite Permutation_app_comm.
    + destruct (writeEntityFiles headers slugFields rows ∅
                  !! entityFileName (length rows)) as [doc|] eqn:E; [|done].
      apply writeEntityFiles_lookup in E as (i & Hi & Heq).
      apply entityFileName_inj in Heq; lia.
Qed.

Lemma written_numbers rows i f :
  (Z.of_nat (length rows) ≤ GoStrconv.maxInt)%Z →
  written rows !! i = Some f → extractFileNumber f.1 = (Z.of_nat i + 1)%Z.
Proof.
  intros Hlen Hi. unfold written in Hi.
  rewrite list_lookup_imap in Hi.
  destruct (rows !! i) as [record|] eqn:E; [|done].
  injection Hi as <-. simpl.
  apply extractFileNumber_entityFileName.
  apply lookup_lt_Some in E. lia.
Qed.

End ForwardFiles.

(** A list whose [i]-th element has key [i + c] is in key order, without
    repeated keys. *)
Lemma numbered_sorted {A} (key : A → Z) (l : list A) (c : Z) :
  (∀ i x, l !! i = Some x → key x = (Z.of_nat i + c)%Z) →
  StronglySorted (GoSort.keyLe key) l ∧ NoDup (key <$> l).
Proof.
  revert c. induction l as [|x l IH]; intros c Hkeys.
  - split; constructor.
  - assert (key x = c) as Hx by (rewrite (Hkeys 0 x); [lia|done]).
    assert (∀ i y, l !! i = Some y → key y = (Z.of_nat i + (c + 1))%Z) as Hl.
    { intros i y Hy. rewrite (Hkeys (S i) y); [lia|done]. }
    destruct (IH _ Hl) as [Hs Hnd]. split.
    + constructor; [done|]. apply Forall_forall. intros y Hy.
      apply list_elem_of_lookup in Hy as [i Hi].
      unfold GoSort.keyLe. rewrite (Hl i y Hi). lia.
    + rewrite fmap_cons. constructor; [|done].
      intros Hin. apply list_elem_of_fmap in Hin as (y & Hy & Hin).
      apply list_elem_of_lookup in Hin as [i Hi].
      rewrite (Hl i y Hi) in Hy. lia.
Qed.

Lemma isRecordFile_entityFileName csvName i :
  (Z.of_nat i < GoStrconv.maxInt)%Z →
  isRecordFile csvName (entityFileName i) = true.
Proof.
  intros Hi. unfold isRecordFile.
  apply andb_true_iff. split; [apply HasSuffix_app|].
  apply negb_true_iff, String.eqb_neq. intros Heq.
  pose proof (extractFileNumber_entityFileName i Hi) as Hnum.
  rewrite Heq in Hnum. unfold extractFileNumber in Hnum.
  change ("." +:+ csvName +:+ ".yaml")
    with (String "." csvName +:+ ".yaml") in Hnum.
  rewrite fileStem_yaml in Hnum.
  unfold GoStrconv.Atoi in Hnum. simpl in Hnum.
  destruct (NilEmpty.uint_of_string csvName); simpl in Hnum; lia.
Qed.

Lemma filter_all {A} (P : A → Prop) `{!∀ x, Decision (P x)} (l : list A) :
  Forall P l → filter P l = l.
Proof.
  induction 1 as [|x l Hx Hl IH]; [done|].
  rewrite filter_cons, decide_True by done. by rewrite IH.
Qed.

Lemma recordFiles_written csvName headers slugFields rows :
  (Z.of_nat (length rows) ≤ GoStrconv.maxInt)%Z →
  recordFiles csvName (writeEntityFiles headers slugFields rows ∅)
  = imap (fun i record =>
            (entityFileName i, rowDocument headers record slugFields)) rows.
Proof.
  intros Hlen.
  set (written := imap _ rows).
  destruct (numbered_sorted (fun f => extractFileNumber f.1) written 1)
    as [Hsorted Hnd].
  { intros i f Hf. by eapply written_numbers. }
  assert (sortedFiles (writeEntityFiles headers slugFields rows ∅) = written)
    as Hfiles.
  { symmetry. apply (keySorted_unique (fun f => extractFileNumber f.1));
      [done|done|apply sortedFiles_sorted|].
    rewrite sortedFiles_Permutation. symmetry.
    by apply writeEntityFiles_to_list. }
  unfold recordFiles. rewrite Hfiles.
  apply filter_all. apply Forall_forall. intros f Hf.
  apply list_elem_of_lookup in Hf as [i Hi].
  unfold written in Hi. rewrite list_lookup_imap in Hi.
  destruct (rows !! i) as [record|] eqn:E; [|done].
  injection Hi as <-. simpl. apply Is_true_true.
  apply isRecordFile_entityFileName.
  apply lookup_lt_Some in E. lia.
Qed.

Lemma csvRow_rowDocument headers slugFields record :
  NoDup (addPrefixIfReserved <$> headers) →
  length record = length headers →
  csvRow (addPrefixIfReserved <$> headers)
         (rowDocument headers record slugFields)
  = restoredRow headers slugFields record.
Proof.
  intros Hnd Hlen. apply list_eq. intros j.
  unfold csvRow, restoredRow.
  rewrite !list_lookup_fmap, lookup_zip_with.
  destruct (headers !! j) as [h|] eqn:Hh; simpl; [|done].
  destruct (record !! j) as [v|] eqn:Hv; simpl.
  2:{ apply lookup_lt_Some in Hh. apply lookup_ge_None in Hv. lia. }
  f_equal. rewrite addPrefixIfReserved_idem. unfold rowDocument.
  destruct (decide (h = decaptaIDField)) as [->|Hne].
  - change (addPrefixIfReserved decaptaIDField) with decaptaIDField.
    by rewrite lookup_insert_eq.
  - rewrite lookup_insert_ne.
    + by erewrite rowData_lookup.
    + intros Heq. symmetry in Heq.
      by apply (proj1 (addPrefixIfReserved_id_field h)) in Heq.
Qed.

Lemma restoredRow_plain headers slugFields record :
  decaptaIDField ∉ headers → length record = length headers →
  restoredRow headers slugFields record = record.
Proof.
  intros Hnot Hlen. apply list_eq. intros j.
  unfold restoredRow. rewrite lookup_zip_with.
  destruct (headers !! j) as [h|] eqn:Hh; simpl.
  - destruct (record !! j) as [v|]; simpl; [|done].
    rewrite decide_False; [done|].
    intros ->. apply Hnot. by eapply list_elem_of_lookup_2.
  - symmetry. apply lookup_ge_None. apply lookup_ge_None in Hh. lia.
Qed.




(** A column already named like the alias of a reserved name comes back
    under the reserved name. *)
Example csv_alias_header_not_restored :
  CSVPostProcess "t"
    (CSVPreProcess [["decapta_data"]; ["1"]] [] emptyContentDir)
  = Some [["data"]; ["1"]].
Proof. vm_compute. reflexivity. Qed.



(** ** Serialization of an ordered document *)

(** C1 (refuted by the code). [MarshalJSON] does not write the entries
    in construction order: the document [bye, hello, @hello], as
    [ARBPostProcess] builds it, is written [@hello, bye, hello].  The
    entries pass through a map and are written in key order. *)
Theorem MarshalJSON_loses_construction_order :
  let om :=
    [KVPair.mk "bye" (JString "Bye");
     KVPair.mk "hello" (JString "Hi");
     KVPair.mk "@hello" (JObject [("description", JString "greeting")])] in
  MarshalJSON om
  = [("@hello", JObject [("description", JString "greeting")]);
     ("bye", JString "Bye");
     ("hello", JString "Hi")]
  ∧ MarshalJSON om ≠ pairOf <$> om.
Proof. split; [vm_compute; reflexivity | vm_compute; discriminate]. Qed.

(** ** The configuration tree: lookups *)

Lemma pairs_ind {A} (P : list A → Prop) :
  P [] → (∀ x, P [x]) → (∀ x y l, P l → P (x :: y :: l)) → ∀ l, P l.
Proof.
  intros Hnil Hone Hpair l.
  assert (P l ∧ ∀ x, P (x :: l)) as [H _]; [|exact H].
  induction l as [|y l [IH1 IH2]]; split; auto.
Qed.

Lemma appendContent_nil node : appendContent node [] = node.
Proof. destruct node. unfold appendContent, setContent. simpl. by rewrite app_nil_r. Qed.

Lemma appendContent_app node e1 e2 :
  appendContent (appendContent node e1) e2 = appendContent node (e1 ++ e2).
Proof. unfold appendContent, setContent. simpl. by rewrite app_assoc. Qed.

Lemma findFieldIndex_lt content key j :
  findFieldIndex content key = Ok (Some j) → j < length content.
Proof.
  revert j. induction content as [|k|k v rest IH] using pairs_ind;
    intros j; simpl.
  - discriminate.
  - destruct (String.eqb (Value k) key); discriminate.
  - destruct (String.eqb (Value k) key).
    + intros [= <-]. lia.
    + destruct (findFieldIndex rest key) as [[j'|]|]; simpl; try discriminate.
      intros [= <-]. specialize (IH j' eq_refl). lia.
Qed.

Lemma findFieldIndex_insert content key j n :
  findFieldIndex content key = Ok (Some j) →
  findFieldIndex (<[j := n]> content) key = Ok (Some j).
Proof.
  revert j. induction content as [|k|k v rest IH] using pairs_ind;
    intros j; simpl.
  - discriminate.
  - destruct (String.eqb (Value k) key); discriminate.
  - destruct (String.eqb (Value k) key) eqn:E.
    + intros [= <-]. simpl. by rewrite E.
    + destruct (findFieldIndex rest key) as [[j'|]|] eqn:E'; simpl;
        try discriminate.
      intros [= <-]. simpl. rewrite E. by rewrite (IH j' eq_refl).
Qed.

Lemma findFieldIndex_app_found content key j extra :
  findFieldIndex content key = Ok (Some j) →
  findFieldIndex (content ++ extra) key = Ok (Some j).
Proof.
  revert j. induction content as [|k|k v rest IH] using pairs_ind;
    intros j; simpl.
  - discriminate.
  - destruct (String.eqb (Value k) key); discriminate.
  - destruct (String.eqb (Value k) key) eqn:E; [done|].
    destruct (findFieldIndex rest key) as [[j'|]|] eqn:E'; simpl;
      try discriminate.
    intros [= <-]. by rewrite (IH j' eq_refl).
Qed.

Lemma findFieldIndex_app_missing content key extra :
  Nat.even (length content) = true →
  findFieldIndex content key = Ok None →
  findFieldIndex (content ++ extra) key
  = (j ←! findFieldIndex extra key; Ok ((fun j => length content + j) <$> j)).
Proof.
  induction content as [|k|k v rest IH] using pairs_ind; simpl.
  - intros _ _. destruct (findFieldIndex extra key) as [[j|]|]; done.
  - discriminate.
  - intros Heven. destruct (String.eqb (Value k) key) eqn:E; [done|].
    destruct (findFieldIndex rest key) as [[j'|]|] eqn:E'; simpl;
      try discriminate.
    intros _. rewrite IH by done.
    destruct (findFieldIndex extra key) as [[j|]|]; done.
Qed.

Lemma findFieldIndex_even content key :
  Nat.even (length content) = true → findFieldIndex content key ≠ Panic.
Proof.
  induction content as [|k|k v rest IH] using pairs_ind; simpl.
  - done.
  - discriminate.
  - intros Heven. destruct (String.eqb (Value k) key); [done|].
    specialize (IH Heven).
    destruct (findFieldIndex rest key) as [[j'|]|]; done.
Qed.

(** The loop of [mergeCollectionFields] never runs: the first child of
    an encoded descriptor is the scalar key ["name"], which has no
    children.  What remains is the identifier attribute. *)
Lemma mergeCollectionFields_eq existingNode newColl :
  mergeCollectionFields existingNode newColl
  = (idFieldValue ←! findFieldInNode existingNode decaptaIDField;
     Ok (match idFieldValue with
         | None =>
             if negb (String.eqb (Collection.IdentifierField newColl) "")
             then appendContent existingNode
                    (identifierPairs [Collection.IdentifierField newColl])
             else existingNode
         | Some _ => existingNode
         end)).
Proof.
  unfold mergeCollectionFields.
  destruct (findFieldInNode existingNode decaptaIDField) as [[v|]|]; done.
Qed.

(** ** Synchronisation is non-destructive *)

Lemma keepsEntry_refl node : keepsEntry node node.
Proof. exists []. split; [by rewrite appendContent_nil|done]. Qed.

Lemma keepsEntry_trans n1 n2 n3 :
  keepsEntry n1 n2 → keepsEntry n2 n3 → keepsEntry n1 n3.
Proof.
  intros (ids1 & -> & H1) (ids2 & -> & H2). exists (ids1 ++ ids2). split.
  - unfold identifierPairs. by rewrite appendContent_app, bind_app.
  - intros v Hv. rewrite (H1 v Hv) in *. simpl.
    apply (H2 v). unfold identifierPairs. simpl.
    by rewrite appendContent_nil.
Qed.

Lemma keepsEntry_lookup node node' p a :
  keepsEntry node node' → Content node !! p = Some a →
  Content node' !! p = Some a.
Proof. intros (ids & -> & _) Hp. simpl. by apply lookup_app_l_Some. Qed.

Lemma mergeCollectionFields_keeps existingNode newColl merged :
  mergeCollectionFields existingNode newColl = Ok merged →
  keepsEntry existingNode merged.
Proof.
  rewrite mergeCollectionFields_eq.
  destruct (findFieldInNode existingNode decaptaIDField) as [[v|]|] eqn:E;
    simpl; [| |discriminate].
  - intros [= <-]. apply keepsEntry_refl.
  - destruct (negb _); intros [= <-]; [|apply keepsEntry_refl].
    exists [Collection.IdentifierField newColl].
    split; [done|]. intros v Hv. congruence.
Qed.

Lemma keepsEntries_refl nodes : keepsEntries nodes nodes.
Proof. intros i node Hi. exists node. split; [done|apply keepsEntry_refl]. Qed.

Lemma keepsEntries_trans l1 l2 l3 :
  keepsEntries l1 l2 → keepsEntries l2 l3 → keepsEntries l1 l3.
Proof.
  intros H12 H23 i n1 Hi.
  destruct (H12 i n1 Hi) as (n2 & Hi2 & Hk12).
  destruct (H23 i n2 Hi2) as (n3 & Hi3 & Hk23).
  exists n3. split; [done|]. by eapply keepsEntry_trans.
Qed.

Lemma upsertCollection_keeps existingNodes newColl nodes :
  upsertCollection existingNodes newColl = Ok nodes →
  keepsEntries existingNodes nodes.
Proof.
  unfold keepsEntries.
  revert nodes. induction existingNodes as [|n rest IH]; intros nodes; simpl.
  - intros _ i node Hi. by rewrite lookup_nil in Hi.
  - destruct (String.eqb (decodeFolder n) (Collection.Folder newColl)).
    + destruct (mergeCollectionFields n newColl) as [merged|] eqn:E;
        simpl; [|discriminate].
      intros [= <-] [|i] node Hi; simpl in *.
      * injection Hi as <-. exists merged. split; [done|].
        by eapply mergeCollectionFields_keeps.
      * exists node. split; [done|apply keepsEntry_refl].
    + destruct (upsertCollection rest newColl) as [rest'|] eqn:E;
        simpl; [|discriminate].
      intros [= <-] [|i] node Hi; simpl in *.
      * injection Hi as <-. exists n. split; [done|apply keepsEntry_refl].
      * by apply (IH rest').
Qed.

Lemma upsertCollectionsFrom_keeps collections existingNodes nodes :
  upsertCollectionsFrom collections existingNodes = Ok nodes →
  keepsEntries existingNodes nodes.
Proof.
  revert existingNodes. induction collections as [|d rest IH];
    intros existingNodes; simpl.
  - intros [= <-]. apply keepsEntries_refl.
  - destruct (upsertCollection existingNodes d) as [nodes1|] eqn:E;
      simpl; [|discriminate].
    intros H. eapply keepsEntries_trans; [|by apply IH].
    by eapply upsertCollection_keeps.
Qed.

(** The collections of the synchronised document, in terms of those of
    the document given. *)
Lemma synchronize_collections rootNode collections rootNode' :
  synchronize rootNode collections = Ok rootNode' →
  collectionsOf rootNode ≠ [] →
  upsertCollectionsFrom collections (collectionsOf rootNode)
  = Ok (collectionsOf rootNode').
Proof.
  unfold synchronize, collectionsOf, findFieldInNode.
  destruct (Content rootNode) as [|top others] eqn:Hroot; [done|].
  destruct (findFieldIndex (Content top) "collections") as [[j|]|] eqn:Hj;
    simpl; [| |done].
  - destruct (Content top !! j) as [collectionsNode|] eqn:Hc; [|done].
    unfold upsertCollections.
    destruct (upsertCollectionsFrom collections (Content collectionsNode))
      as [nodes|] eqn:Hup; simpl; [|done].
    intros [= <-] _. simpl.
    rewrite (findFieldIndex_insert _ _ _ _ Hj). simpl.
    rewrite list_lookup_insert_eq; [done|].
    by eapply findFieldIndex_lt.
  - intros _ Hne. done.
Qed.

(** C4. Synchronisation never removes or rewrites what the document
    holds: every existing collection entry stays at its place with all
    its children (attributes, field list and the fields in it) unchanged,
    the only possible addition to it being an identifier attribute when
    it has none; and every other top-level entry of the document is
    unchanged. *)
Theorem synchronize_non_destructive
    (rootNode : Node) (collections : list Collection) (rootNode' : Node) :
  synchronize rootNode collections = Ok rootNode' →
  keepsEntries (collectionsOf rootNode) (collectionsOf rootNode')
  ∧ (∀ i node p a,
       collectionsOf rootNode !! i = Some node →
       Content node !! p = Some a →
       ∃ node', collectionsOf rootNode' !! i = Some node'
                ∧ Content node' !! p = Some a)
  ∧ (∃ top top' others,
       Content rootNode = top :: others
       ∧ Content rootNode' = top' :: others
       ∧ ∀ p a, Content top !! p = Some a →
                findFieldIndex (Content top) "collections" ≠ Ok (Some p) →
                Content top' !! p = Some a).
Proof.
  intros Hsync.
  assert (keepsEntries (collectionsOf rootNode) (collectionsOf rootNode'))
    as Hkeeps.
  { destruct (collectionsOf rootNode) as [|n l] eqn:E.
    - intros i node Hi. by rewrite lookup_nil in Hi.
    - rewrite <- E. eapply upsertCollectionsFrom_keeps.
      apply synchronize_collections; [done|]. by rewrite E. }
  split; [exact Hkeeps|]. split.
  - intros i node p a Hi Hp.
    destruct (Hkeeps i node Hi) as (node' & Hi' & Hk).
    exists node'. split; [done|]. by eapply keepsEntry_lookup.
  - unfold synchronize in Hsync.
    destruct (Content rootNode) as [|top others] eqn:Hroot; [done|].
    destruct (findFieldIndex (Content top) "collections") as [[j|]|] eqn:Hj;
      simpl in Hsync; [| |done].
    + destruct (Content top !! j) as [collectionsNode|]; [|done].
      destruct (upsertCollections collectionsNode collections)
        as [updated|]; simpl in Hsync; [|done].
      injection Hsync as <-. eexists top, _, others.
      split; [done|]. split; [done|].
      intros p a Hp Hne. simpl.
      rewrite list_lookup_insert_ne; [done|]. congruence.
    + destruct (upsertCollections sequenceLit collections)
        as [updated|]; simpl in Hsync; [|done].
      injection Hsync as <-. eexists top, _, others.
      split; [done|]. split; [done|].
      intros p a Hp _. simpl. by apply lookup_app_l_Some.
Qed.

(** ** Synchronisation is idempotent *)

Lemma even_length_app {A} (l1 l2 : list A) :
  Nat.even (length l1) = true → Nat.even (length l2) = true →
  Nat.even (length (l1 ++ l2)) = true.
Proof.
  intros H1 H2. rewrite length_app, Nat.even_add, H1, H2. reflexivity.
Qed.

Lemma decodeFolderIn_app_identifier content v :
  Nat.even (length content) = true →
  decodeFolderIn (content ++ identifierPairs [v]) = decodeFolderIn content.
Proof.
  induction content as [|k|k x rest IH] using pairs_ind; simpl.
  - done.
  - discriminate.
  - intros Heven. destruct (String.eqb (Value k) "folder"); [done|].
    by apply IH.
Qed.

Lemma mappingKeys_app content extra :
  Nat.even (length content) = true →
  mappingKeys (content ++ extra) = mappingKeys content ++ mappingKeys extra.
Proof.
  induction content as [|k|k x rest IH] using pairs_ind; simpl.
  - done.
  - discriminate.
  - intros Heven. f_equal. by apply IH.
Qed.

Lemma mappingKeys_insert content key j v :
  findFieldIndex content key = Ok (Some j) →
  mappingKeys (<[j := v]> content) = mappingKeys content.
Proof.
  revert j. induction content as [|k|k x rest IH] using pairs_ind;
    intros j; simpl.
  - discriminate.
  - destruct (String.eqb (Value k) key); discriminate.
  - destruct (String.eqb (Value k) key).
    + by intros [= <-].
    + destruct (findFieldIndex rest key) as [[j'|]|] eqn:E; simpl;
        try discriminate.
      intros [= <-]. simpl. f_equal. by apply IH.
Qed.

Lemma findFieldIndex_None_keys content key :
  Nat.even (length content) = true →
  findFieldIndex content key = Ok None →
  Forall (fun k => Value k ≠ key) (mappingKeys content).
Proof.
  induction content as [|k|k x rest IH] using pairs_ind; simpl.
  - constructor.
  - discriminate.
  - intros Heven. destruct (String.eqb_spec (Value k) key); [done|].
    destruct (findFieldIndex rest key) as [[j'|]|] eqn:E; simpl;
      try discriminate.
    intros _. constructor; [done|]. by apply IH.
Qed.

Lemma findFieldInNode_None node key :
  findFieldInNode node key = Ok None →
  findFieldIndex (Content node) key = Ok None.
Proof.
  unfold findFieldInNode.
  destruct (findFieldIndex (Content node) key) as [[j|]|] eqn:E; simpl;
    [|done|discriminate].
  intros [= Hj]. apply findFieldIndex_lt in E.
  apply lookup_ge_None in Hj. lia.
Qed.

Lemma uniqueKeys_appended content v :
  Nat.even (length content) = true →
  findFieldIndex content decaptaIDField = Ok None →
  uniqueKeys (content ++ identifierPairs [v]) = uniqueKeys content.
Proof.
  intros Heven Hnone. unfold uniqueKeys.
  rewrite mappingKeys_app by done. simpl. rewrite fmap_app. simpl.
  apply bool_decide_ext. rewrite NoDup_app. split; [by intros [? _]|].
  intros Hnd. split; [done|]. split; [|repeat constructor; set_solver].
  intros id Hid Hin. apply list_elem_of_singleton in Hin as ->.
  apply list_elem_of_fmap in Hid as (k & Hk & Hin).
  pose proof (findFieldIndex_None_keys _ _ Heven Hnone) as Hkeys.
  rewrite Forall_forall in Hkeys. apply (Hkeys k Hin).
  by injection Hk as _ <-.
Qed.

Lemma findFieldInNode_appended node v :
  isMapping node →
  findFieldInNode node decaptaIDField = Ok None →
  findFieldInNode (appendContent node (identifierPairs [v])) decaptaIDField
  = Ok (Some (scalarLit v)).
Proof.
  intros [_ Heven] Hnone%findFieldInNode_None. unfold findFieldInNode. simpl.
  rewrite findFieldIndex_app_missing by done. simpl.
  rewrite lookup_app_r by lia.
  by replace (length (Content node) + 1 - length (Content node)) with 1
    by lia.
Qed.

Lemma findFieldInNode_mapping node key :
  isMapping node → findFieldInNode node key ≠ Panic.
Proof.
  intros [_ Heven]. unfold findFieldInNode.
  pose proof (findFieldIndex_even (Content node) key Heven).
  destruct (findFieldIndex (Content node) key); done.
Qed.

Lemma merge_cases node d :
  isMapping node →
  ((∃ v, findFieldInNode node decaptaIDField = Ok (Some v))
   ∧ mergeCollectionFields node d = Ok node)
  ∨ (findFieldInNode node decaptaIDField = Ok None
     ∧ Collection.IdentifierField d = ""
     ∧ mergeCollectionFields node d = Ok node)
  ∨ (findFieldInNode node decaptaIDField = Ok None
     ∧ Collection.IdentifierField d ≠ ""
     ∧ mergeCollectionFields node d
       = Ok (appendContent node
               (identifierPairs [Collection.IdentifierField d]))).
Proof.
  intros Hnode. rewrite mergeCollectionFields_eq.
  pose proof (findFieldInNode_mapping node decaptaIDField Hnode) as Hok.
  destruct (findFieldInNode node decaptaIDField) as [[v|]|]; simpl; [| |done].
  - left. eauto.
  - destruct (String.eqb_spec (Collection.IdentifierField d) "") as [Heq|Hne];
      simpl; [right; left | right; right]; done.
Qed.

Lemma isMapping_appended node v :
  isMapping node → isMapping (appendContent node (identifierPairs [v])).
Proof.
  intros [Hkind Heven]. split; [done|]. simpl.
  by apply even_length_app.
Qed.

Lemma decodeFolder_appended node v :
  isMapping node →
  findFieldInNode node decaptaIDField = Ok None →
  decodeFolder (appendContent node (identifierPairs [v])) = decodeFolder node.
Proof.
  intros [Hkind Heven] Hnone%findFieldInNode_None.
  unfold decodeFolder. simpl. rewrite Hkind.
  change [scalarLit decaptaIDField; scalarLit v] with (identifierPairs [v]).
  by rewrite uniqueKeys_appended, decodeFolderIn_app_identifier.
Qed.

Lemma merge_total node d :
  isMapping node →
  ∃ node', mergeCollectionFields node d = Ok node'
           ∧ isMapping node'
           ∧ decodeFolder node' = decodeFolder node
           ∧ mergeCollectionFields node' d = Ok node'
           ∧ (∀ d', mergeCollectionFields node d' = Ok node →
                    mergeCollectionFields node' d' = Ok node').
Proof.
  intros Hnode.
  destruct (merge_cases node d Hnode)
    as [[_ Hm]|[(_ & _ & Hm)|(Hfind & Hid & Hm)]].
  1,2: exists node; split; [done|]; split; [done|]; split; [done|];
    split; [done|]; intros d' Hd'; exact Hd'.
  set (node' := appendContent node _) in *.
  assert (isMapping node') as Hnode' by by apply isMapping_appended.
  assert (∀ d', mergeCollectionFields node' d' = Ok node') as Hsettled.
  { intros d'. rewrite mergeCollectionFields_eq.
    unfold node'. by rewrite findFieldInNode_appended. }
  exists node'. split; [done|]. split; [done|].
  split; [by apply decodeFolder_appended|].
  split; [apply Hsettled|]. intros d' _. apply Hsettled.
Qed.

(** *** The encoding of a descriptor *)

Lemma even_length_strOmitEmpty key s :
  Nat.even (length (Encode.strOmitEmpty key s)) = true.
Proof. unfold Encode.strOmitEmpty. by destruct (String.eqb s ""). Qed.

Lemma even_length_boolOmitEmpty key b :
  Nat.even (length (Encode.boolOmitEmpty key b)) = true.
Proof. by destruct b. Qed.

Lemma even_length_seqOmitEmpty key items :
  Nat.even (length (Encode.seqOmitEmpty key items)) = true.
Proof. by destruct items. Qed.

Lemma even_length_editor e : Nat.even (length (Encode.editor e)) = true.
Proof. unfold Encode.editor. by destruct (Editor.Preview e). Qed.

Lemma isMapping_encoded d : isMapping (Encode.collection d).
Proof.
  split; [done|]. unfold Encode.collection. simpl Content.
  repeat apply even_length_app;
    auto using even_length_strOmitEmpty, even_length_boolOmitEmpty,
      even_length_seqOmitEmpty, even_length_editor.
Qed.

Lemma attribute_always key v : attribute key (Encode.always key v).
Proof. right. by exists v. Qed.

Lemma attribute_strOmitEmpty key s : attribute key (Encode.strOmitEmpty key s).
Proof.
  unfold Encode.strOmitEmpty. destruct (String.eqb s ""); [by left|].
  right. eauto.
Qed.

Lemma attribute_boolOmitEmpty key b : attribute key (Encode.boolOmitEmpty key b).
Proof. destruct b; [|by left]. right. simpl. eauto. Qed.

Lemma attribute_seqOmitEmpty key items :
  attribute key (Encode.seqOmitEmpty key items).
Proof. destruct items; [by left|]. right. simpl. eauto. Qed.

Lemma attribute_editor e : attribute "editor" (Encode.editor e).
Proof.
  unfold Encode.editor. destruct (Editor.Preview e); [|by left].
  right. eauto.
Qed.

Create HintDb encoded discriminated.
#[local] Hint Resolve attribute_always attribute_strOmitEmpty
  attribute_boolOmitEmpty attribute_seqOmitEmpty attribute_editor : encoded.

Lemma decodeFolderIn_skip key segment rest :
  attribute key segment → String.eqb key "folder" = false →
  decodeFolderIn (segment ++ rest) = decodeFolderIn rest.
Proof. intros [->|(v & ->)] Hk; simpl; [done|by rewrite Hk]. Qed.

Lemma attribute_keys key segment rest keys :
  attribute key segment →
  keyIdentity <$> mappingKeys rest `sublist_of` keys →
  keyIdentity <$> mappingKeys (segment ++ rest)
    `sublist_of` (ScalarNode, key) :: keys.
Proof.
  intros [->|(v & ->)] Hrest; simpl.
  - by apply sublist_cons.
  - by apply sublist_skip.
Qed.

Lemma uniqueKeys_encoded d : uniqueKeys (Content (Encode.collection d)) = true.
Proof.
  apply bool_decide_eq_true.
  apply sublist_NoDup with ((fun key => (ScalarNode, key)) <$> collectionKeys).
  - apply (bool_decide_unpack _). vm_compute. reflexivity.
  - unfold Encode.collection, Encode.mapping. cbn [Content].
    rewrite <- (app_nil_r (Encode.seqOmitEmpty "fields" _)).
    repeat (apply attribute_keys; [auto with encoded|]).
    constructor.
Qed.

Lemma decodeFolder_encoded d :
  decodeFolder (Encode.collection d) = Collection.Folder d.
Proof.
  unfold decodeFolder. rewrite uniqueKeys_encoded.
  unfold Encode.collection, Encode.mapping. cbn [Kind Content].
  rewrite <- (app_nil_r (Encode.seqOmitEmpty "fields" _)).
  do 2 (erewrite decodeFolderIn_skip; [|auto with encoded|reflexivity]).
  unfold Encode.strOmitEmpty at 1.
  destruct (String.eqb_spec (Collection.Folder d) "") as [->|Hne];
    [|reflexivity].
  rewrite app_nil_l.
  by repeat (erewrite decodeFolderIn_skip; [|auto with encoded|reflexivity]).
Qed.

Lemma findFieldInNode_encoded_slug d :
  Collection.Slug d ≠ "" →
  ∃ v, findFieldInNode (Encode.collection d) decaptaIDField = Ok (Some v).
Proof.
  destruct d as [? ? folder create slug ? ? ? [?] files fields].
  cbn [Collection.Slug]. intros Hslug.
  unfold findFieldInNode, Encode.collection, Encode.mapping, Encode.always,
    Encode.strOmitEmpty, Encode.boolOmitEmpty.
  cbn [Content Collection.Name Collection.Label Collection.Folder
         Collection.Create Collection.Slug].
  destruct (String.eqb_spec slug "") as [->|_]; [done|].
  destruct (String.eqb folder ""), create; simpl; eauto.
Qed.

Lemma merge_encoded d :
  carriesSlugTemplate d →
  mergeCollectionFields (Encode.collection d) d = Ok (Encode.collection d).
Proof.
  intros Hslug.
  destruct (merge_cases (Encode.collection d) d (isMapping_encoded d))
    as [[_ Hm]|[(_ & _ & Hm)|(Hfind & Hid & _)]]; [done|done|].
  destruct (findFieldInNode_encoded_slug d (Hslug Hid)) as [v Hv].
  congruence.
Qed.

(** *** One descriptor, then all of them *)

Lemma upsertCollection_settles nodes d :
  Forall isMapping nodes → carriesSlugTemplate d →
  ∃ nodes1,
    upsertCollection nodes d = Ok nodes1
    ∧ Forall isMapping nodes1
    ∧ settledIn nodes1 d
    ∧ (∀ d', settledIn nodes d' → settledIn nodes1 d').
Proof.
  intros Hnodes Hslug. unfold settledIn.
  induction Hnodes as [|n rest Hn Hrest IH]; simpl.
  - exists [Encode.collection d]. split; [done|].
    split; [repeat constructor; apply isMapping_encoded|].
    split; [|discriminate]. simpl.
    rewrite decodeFolder_encoded, String.eqb_refl.
    by rewrite merge_encoded.
  - destruct (String.eqb (decodeFolder n) (Collection.Folder d)) eqn:Hmatch.
    + destruct (merge_total n d Hn) as (n' & Hm & Hn' & Hfolder & Hidem & Hkeep).
      exists (n' :: rest). rewrite Hm. simpl. split; [done|].
      split; [by constructor|]. rewrite Hfolder, Hmatch, Hidem. simpl.
      split; [done|]. intros d'.
      destruct (String.eqb (decodeFolder n) (Collection.Folder d')).
      * destruct (mergeCollectionFields n d') as [n''|] eqn:Hd'; simpl;
          [|discriminate].
        intros [= ->]. by rewrite (Hkeep d' Hd').
      * destruct (upsertCollection rest d') as [rest''|]; simpl;
          [|discriminate].
        by intros [= ->].
    + destruct IH as (rest1 & Hup & Hrest1 & Hsettled & Hkeep).
      exists (n :: rest1). rewrite Hup. simpl. split; [done|].
      split; [by constructor|]. rewrite Hmatch, Hsettled. simpl.
      split; [done|]. intros d'.
      destruct (String.eqb (decodeFolder n) (Collection.Folder d')).
      * destruct (mergeCollectionFields n d') as [n''|]; simpl;
          [|discriminate].
        by intros [= ->].
      * destruct (upsertCollection rest d') as [rest''|] eqn:Hd'; simpl;
          [|discriminate].
        intros [= ->]. by rewrite (Hkeep d' Hd').
Qed.

Lemma upsertCollectionsFrom_settles collections nodes :
  Forall isMapping nodes → Forall carriesSlugTemplate collections →
  ∃ nodes',
    upsertCollectionsFrom collections nodes = Ok nodes'
    ∧ Forall isMapping nodes'
    ∧ Forall (settledIn nodes') collections
    ∧ (∀ d', settledIn nodes d' → settledIn nodes' d').
Proof.
  intros Hnodes Hslug. revert nodes Hnodes.
  induction Hslug as [|d rest Hd Hrest IH]; intros nodes Hnodes; simpl.
  - exists nodes. by repeat split.
  - destruct (upsertCollection_settles nodes d Hnodes Hd)
      as (nodes1 & Hup & Hnodes1 & Hsettled & Hkeep1).
    destruct (IH nodes1 Hnodes1) as (nodes' & Hup' & Hnodes' & Hall & Hkeep').
    exists nodes'. rewrite Hup. simpl. split; [done|]. split; [done|].
    split; [constructor; auto|]. auto.
Qed.

Lemma upsertCollectionsFrom_settled collections nodes :
  Forall (settledIn nodes) collections →
  upsertCollectionsFrom collections nodes = Ok nodes.
Proof.
  induction 1 as [|d rest Hd Hrest IH]; simpl; [done|].
  unfold settledIn in Hd. by rewrite Hd.
Qed.

Lemma setContent_Content node : setContent node (Content node) = node.
Proof. by destruct node. Qed.

Lemma setContent_setContent node c1 c2 :
  setContent (setContent node c1) c2 = setContent node c2.
Proof. done. Qed.

Lemma csvCollection_carriesSlugTemplate pf pd contentDir csvName headers rows :
  carriesSlugTemplate (csvCollection pf pd contentDir csvName headers rows).
Proof. intros _. discriminate. Qed.

Lemma arbCollection_carriesSlugTemplate contentDir language fields :
  carriesSlugTemplate (arbCollection contentDir language fields).
Proof. intros Hid. by destruct Hid. Qed.

Lemma csvCollections_carriesSlugTemplate pf pd contentDir ignoredFiles files :
  Forall carriesSlugTemplate
    (csvCollections pf pd contentDir ignoredFiles files).
Proof.
  apply Forall_forall. intros d Hd. unfold csvCollections in Hd.
  apply list_elem_of_omap in Hd as ([name records] & _ & Hd).
  repeat case_match; try discriminate.
  injection Hd as <-. apply csvCollection_carriesSlugTemplate.
Qed.

(** C3. On a configuration document tree (a document rooted at a mapping
    whose collections are mappings), synchronising with descriptors that
    carry a slug template whenever they name an identifier field (all
    descriptors built by the package do) succeeds, and synchronising the
    result again with the same descriptors returns that same tree. *)
Theorem synchronize_idempotent
    (rootNode : Node) (collections : list Collection) :
  configTree rootNode →
  Forall carriesSlugTemplate collections →
  ∃ rootNode1,
    synchronize rootNode collections = Ok rootNode1
    ∧ synchronize rootNode1 collections = Ok rootNode1.
Proof.
  unfold configTree, collectionsOf, synchronize, findFieldInNode.
  intros Htree Hslug.
  destruct (Content rootNode) as [|top others] eqn:Hroot; [done|].
  destruct Htree as [[Hkind Heven] Hentries].
  pose proof (findFieldIndex_even (Content top) "collections" Heven) as Hok.
  destruct (findFieldIndex (Content top) "collections") as [[j|]|] eqn:Hj;
    [| |done]; simpl in *.
  - pose proof (findFieldIndex_lt _ _ _ Hj) as Hlt.
    destruct (Content top !! j) as [collectionsNode|] eqn:Hc.
    2:{ apply lookup_ge_None in Hc. lia. }
    destruct (upsertCollectionsFrom_settles collections
                (Content collectionsNode) Hentries Hslug)
      as (nodes' & Hup & _ & Hall & _).
    unfold upsertCollections. rewrite Hup. simpl.
    eexists. split; [done|]. simpl.
    rewrite (findFieldIndex_insert _ _ _ _ Hj). simpl.
    rewrite list_lookup_insert_eq by done. simpl.
    rewrite (upsertCollectionsFrom_settled _ _ Hall). simpl.
    unfold setChild, setContent. simpl.
    by rewrite list_insert_insert_eq.
  - destruct (upsertCollectionsFrom_settles collections [] Hentries Hslug)
      as (nodes' & Hup & _ & Hall & _).
    unfold upsertCollections. simpl. rewrite Hup. simpl.
    eexists. split; [done|]. simpl.
    rewrite findFieldIndex_app_missing by done. simpl.
    rewrite lookup_app_r by lia.
    replace (length (Content top) + 1 - length (Content top)) with 1 by lia.
    simpl. rewrite (upsertCollectionsFrom_settled _ _ Hall). simpl.
    unfold setChild, setContent, appendContent, setContent. simpl.
    rewrite insert_app_r_alt by lia.
    by replace (length (Content top) + 1 - length (Content top)) with 1
      by lia.
Qed.

Lemma sampleDocument_configTree : configTree sampleDocument.
Proof.
  split; [by split|]. vm_compute. repeat constructor.
Qed.

Lemma synchronize_idempotent_witness :
  ∃ rootNode1,
    synchronize sampleDocument sampleDescriptors = Ok rootNode1
    ∧ synchronize rootNode1 sampleDescriptors = Ok rootNode1.
Proof.
  apply synchronize_idempotent.
  - apply sampleDocument_configTree.
  - apply csvCollections_carriesSlugTemplate.
Defined.

Lemma synchronize_non_destructive_witness :
  ∃ rootNode',
    synchronize sampleDocument sampleDescriptors = Ok rootNode'
    ∧ keepsEntries (collectionsOf sampleDocument) (collectionsOf rootNode').
Proof.
  eexists. split; [vm_compute; reflexivity|].
  refine (proj1 (synchronize_non_destructive
                   sampleDocument sampleDescriptors _ _)).
  vm_compute. reflexivity.
Defined.

(** ** Matching by folder *)

Lemma decodeFolderIn_insert_label content j v :
  findFieldIndex content "label" = Ok (Some j) →
  decodeFolderIn (<[j := v]> content) = decodeFolderIn content.
Proof.
  revert j. induction content as [|k|k x rest IH] using pairs_ind;
    intros j; simpl.
  - discriminate.
  - destruct (String.eqb (Value k) "label"); discriminate.
  - destruct (String.eqb_spec (Value k) "label") as [Hk|Hk].
    + intros [= <-]. simpl. by rewrite Hk.
    + destruct (findFieldIndex rest "label") as [[j'|]|] eqn:E; simpl;
        try discriminate.
      intros [= <-]. simpl.
      destruct (String.eqb (Value k) "folder"); [done|]. by apply IH.
Qed.

Lemma decodeFolder_relabel node label :
  decodeFolder (relabel node label) = decodeFolder node.
Proof.
  unfold relabel.
  destruct (findFieldIndex (Content node) "label") as [[j|]|] eqn:E; try done.
  unfold decodeFolder, uniqueKeys. simpl. destruct (Kind node); try done.
  by rewrite (mappingKeys_insert _ _ _ _ E), decodeFolderIn_insert_label.
Qed.

Lemma upsertCollection_matched nodes d nodes' :
  Exists (fun n => decodeFolder n = Collection.Folder d) nodes →
  upsertCollection nodes d = Ok nodes' →
  length nodes' = length nodes.
Proof.
  intros Hex. revert nodes'.
  induction nodes as [|n rest IH]; intros nodes'; simpl.
  - by apply Exists_nil in Hex.
  - destruct (String.eqb_spec (decodeFolder n) (Collection.Folder d))
      as [Heq|Hne].
    + destruct (mergeCollectionFields n d); simpl; [|discriminate].
      by intros [= <-].
    + destruct (upsertCollection rest d) as [rest'|] eqn:E; simpl;
        [|discriminate].
      intros [= <-]. simpl. f_equal. apply IH; [|done].
      by apply Exists_cons in Hex as [|].
Qed.

Lemma upsertCollection_unmatched nodes d :
  Forall (fun n => decodeFolder n ≠ Collection.Folder d) nodes →
  upsertCollection nodes d = Ok (nodes ++ [Encode.collection d]).
Proof.
  induction 1 as [|n rest Hn Hrest IH]; simpl; [done|].
  destruct (String.eqb_spec (decodeFolder n) (Collection.Folder d));
    [done|]. by rewrite IH.
Qed.




(** ** The scenario of the two-row table *)

Lemma synchronize_fresh rootNode top others collections nodes :
  Content rootNode = top :: others →
  isMapping top →
  findFieldIndex (Content top) "collections" = Ok None →
  upsertCollectionsFrom collections [] = Ok nodes →
  ∃ rootNode',
    synchronize rootNode collections = Ok rootNode'
    ∧ collectionsOf rootNode' = nodes.
Proof.
  intros Hroot [_ Heven] Hnone Hup.
  unfold synchronize, upsertCollections. rewrite Hroot, Hnone. simpl.
  rewrite Hup. simpl. eexists. split; [done|].
  unfold collectionsOf, findFieldInNode. simpl.
  rewrite findFieldIndex_app_missing by done. simpl.
  rewrite lookup_app_r by lia.
  by replace (length (Content top) + 1 - length (Content top)) with 1 by lia.
Qed.

Lemma detectFieldType_sample_plain pf pd colIndex :
  String.eqb
    (detectFieldType pf pd [["Alice"; "x"]; ["Bob"; "y"]] colIndex) "markdown"
  = false.
Proof.
  unfold detectFieldType, detectFlags.
  destruct colIndex as [|[|colIndex]]; vm_compute;
    repeat match goal with
           | |- context [if ?b then _ else _] => destruct b
           end;
    reflexivity.
Qed.

(** The node that encodes the descriptor of the sample table, the
    widgets [w0] and [w1] of its two columns being any but markdown. *)
Lemma sample_collection_node (w0 w1 : string) :
  String.eqb w0 "markdown" = false →
  String.eqb w1 "markdown" = false →
  let field header name w :=
    Field.mk header name w (if String.eqb w "markdown" then ["raw"] else [])
      [] false "" "" false "" "" in
  let collection :=
    Encode.collection
      (Collection.mk "csv_people" "CSV Data (people)" "content/people" true
         "{{slug}}" decaptaIDField "yaml" "yaml" (Editor.mk false) []
         [decaptaIDFieldDescriptor; field "name" "name" w0;
          field "data" "decapta_data" w1]) in
  ∃ fields idField nameField dataField,
    Kind collection = MappingNode
    ∧ (scalarAt collection
         <$> ["name"; "label"; "folder"; "create"; "slug";
              "identifier_field"; "format"; "extension"])
      = [Some "csv_people"; Some "CSV Data (people)"; Some "content/people";
         Some "true"; Some "{{slug}}"; Some "slug"; Some "yaml"; Some "yaml"]
    ∧ findFieldInNode collection "fields" = Ok (Some fields)
    ∧ Kind fields = SequenceNode
    ∧ Content fields = [idField; nameField; dataField]
    ∧ Kind <$> Content fields = [MappingNode; MappingNode; MappingNode]
    ∧ (fun f => scalarAt f "name") <$> Content fields
      = [Some "slug"; Some "name"; Some "decapta_data"]
    ∧ (fun f => scalarAt f "label") <$> Content fields
      = [Some "Decapta ID"; Some "name"; Some "data"]
    ∧ (fun f => scalarAt f "required") <$> Content fields
      = [Some "true"; None; None]
    ∧ (fun f => scalarAt f "widget") <$> Content fields
      = [Some "string"; Some w0; Some w1].
Proof.
  intros Hw0 Hw1 field collection. subst field collection. cbv beta.
  rewrite Hw0, Hw1.
  eexists _, _, _, _.
  split; [reflexivity|]. split; [reflexivity|]. split; [reflexivity|].
  split; [reflexivity|]. split; [reflexivity|]. repeat split.
Qed.

(** C9. The table [name,data / Alice,x / Bob,y] with slug field [name]:
    the forward conversion writes the Column Order Record
    [name, decapta_data] and exactly two documents, [1.yaml] and
    [2.yaml], whose identifiers are [Alice] and [Bob]; the reverse
    conversion gives the table back, header [data] included; and, no
    configuration document existing, config generation from a template
    without collections yields a document with a single collection: a
    mapping node for the folder [content/people] whose [fields] sequence
    holds three mappings, the identifier field [slug] marked required,
    [name], and [decapta_data] with the label [data]. *)
Theorem scenario_two_row_table
    (parsesAsFloat parsesAsDate : string → bool)
    (template top : Node) (others : list Node) :
  Content template = top :: others →
  isMapping top →
  findFieldIndex (Content top) "collections" = Ok None →
  let dir := CSVPreProcess sampleTable ["name"] emptyContentDir in
  let descriptor :=
    csvCollection parsesAsFloat parsesAsDate "content" "people"
      ["name"; "data"] [["Alice"; "x"]; ["Bob"; "y"]] in
  let widget :=
    detectFieldType parsesAsFloat parsesAsDate [["Alice"; "x"]; ["Bob"; "y"]] in
  columnOrderFile dir = Some ["name"; "decapta_data"]
  ∧ size (entityFiles dir) = 2
  ∧ (recordFiles "people" (entityFiles dir)).*1 = ["1.yaml"; "2.yaml"]
  ∧ (fun doc : gmap string string => doc !! decaptaIDField)
      <$> (recordFiles "people" (entityFiles dir)).*2
    = [Some "Alice"; Some "Bob"]
  ∧ CSVPostProcess "people" dir = Some sampleTable
  ∧ (∃ rootNode' collection fields idField nameField dataField,
       CSVGenerateConfig parsesAsFloat parsesAsDate "content" []
         [("people.csv", sampleTable)] None template = Ok rootNode'
       ∧ collectionsOf rootNode' = [collection]
       ∧ collection = Encode.collection descriptor
       ∧ Kind collection = MappingNode
       ∧ (scalarAt collection
            <$> ["name"; "label"; "folder"; "create"; "slug";
                 "identifier_field"; "format"; "extension"])
         = [Some "csv_people"; Some "CSV Data (people)";
            Some "content/people"; Some "true"; Some "{{slug}}";
            Some "slug"; Some "yaml"; Some "yaml"]
       ∧ findFieldInNode collection "fields" = Ok (Some fields)
       ∧ Kind fields = SequenceNode
       ∧ Content fields = [idField; nameField; dataField]
       ∧ Kind <$> Content fields = [MappingNode; MappingNode; MappingNode]
       ∧ (fun f => scalarAt f "name") <$> Content fields
         = [Some "slug"; Some "name"; Some "decapta_data"]
       ∧ (fun f => scalarAt f "label") <$> Content fields
         = [Some "Decapta ID"; Some "name"; Some "data"]
       ∧ (fun f => scalarAt f "required") <$> Content fields
         = [Some "true"; None; None]
       ∧ (fun f => scalarAt f "widget") <$> Content fields
         = [Some "string"; Some (widget 0); Some (widget 1)])
  ∧ Field.Name <$> Collection.Fields descriptor
    = ["slug"; "name"; "decapta_data"]
  ∧ Field.Label <$> Collection.Fields descriptor
    = ["Decapta ID"; "name"; "data"]
  ∧ Field.Required <$> Collection.Fields descriptor = [true; false; false].
Proof.
  intros Hroot Htop Hnone dir descriptor widget.
  split; [reflexivity|]. split; [by vm_compute|].
  split; [by vm_compute|]. split; [by vm_compute|].
  split; [by vm_compute|]. split; [|by repeat split].
  destruct (synchronize_fresh template top others
              (csvCollections parsesAsFloat parsesAsDate "content" []
                 [("people.csv", sampleTable)])
              [Encode.collection descriptor] Hroot Htop Hnone eq_refl)
    as (rootNode' & Hrun & Hcollections).
  destruct (sample_collection_node (widget 0) (widget 1)
              (detectFieldType_sample_plain _ _ 0)
              (detectFieldType_sample_plain _ _ 1))
    as (fields & idField & nameField & dataField & Hnode).
  exists rootNode', (Encode.collection descriptor),
    fields, idField, nameField, dataField.
  split; [exact Hrun|]. split; [exact Hcollections|]. split; [reflexivity|].
  exact Hnode.
Qed.

Lemma scenario_two_row_table_witness :
  ∃ rootNode' collection fields,
    CSVGenerateConfig (fun _ => false) (fun _ => false) "content" []
      [("people.csv", sampleTable)] None sampleTemplate = Ok rootNode'
    ∧ collectionsOf rootNode' = [collection]
    ∧ findFieldInNode collection "fields" = Ok (Some fields)
    ∧ (fun f => scalarAt f "name") <$> Content fields
      = [Some "slug"; Some "name"; Some "decapta_data"]
    ∧ (fun f => scalarAt f "widget") <$> Content fields
      = [Some "string"; Some "string"; Some "string"].
Proof.
  destruct (scenario_two_row_table (fun _ => false) (fun _ => false)
              sampleTemplate
              (Encode.mapping
                 [Encode.str "backend";
                  Encode.mapping [Encode.str "name"; Encode.str "git-gateway"]])
              [])
    as (_ & _ & _ & _ & _
        & (rootNode' & collection & fields & idField & nameField & dataField
           & Hconfig & Hcollections & _ & _ & _ & Hfields & _ & _ & _
           & Hnames & _ & _ & Hwidgets)
        & _).
  - reflexivity.
  - split; reflexivity.
  - reflexivity.
  - exists rootNode', collection, fields.
    split; [exact Hconfig|]. split; [exact Hcollections|].
    split; [exact Hfields|]. split; [exact Hnames|exact Hwidgets].
Defined.

(** ** Round trip of a translation file *)

Section InsertFold.

Context {V : Type}.

Lemma fold_insert_snoc (l : list (string * V)) p (m : gmap string V) :
  fold_left (fun m '(k, v) => <[k := v]> m) (l ++ [p]) m
  = <[p.1 := p.2]> (fold_left (fun m '(k, v) => <[k := v]> m) l m).
Proof. rewrite fold_left_app. by destruct p. Qed.

Lemma fold_insert_lookup (l : list (string * V)) k v :
  NoDup l.*1 →
  fold_left (fun m '(k, v) => <[k := v]> m) l (∅ : gmap string V) !! k = Some v
  ↔ (k, v) ∈ l.
Proof.
  induction l as [|[k' v'] l IH] using rev_ind; intros Hnd.
  - simpl. rewrite lookup_empty. split; [done|]. by intros ?%elem_of_nil.
  - rewrite fmap_app in Hnd. apply NoDup_app in Hnd as (Hl & Hfresh & _).
    rewrite fold_insert_snoc, elem_of_app, list_elem_of_singleton. simpl.
    destruct (decide (k' = k)) as [->|Hne].
    + rewrite lookup_insert_eq. split.
      * intros [= ->]. by right.
      * intros [Hin|[= ->]]; [|done]. exfalso.
        apply (Hfresh k); [|set_solver].
        apply list_elem_of_fmap. by exists (k, v).
    + rewrite lookup_insert_ne by done. rewrite IH by done.
      split; [by left|]. intros [|[= -> ->]]; done.
Qed.

Lemma fold_insert_to_list (l : list (string * V)) :
  NoDup l.*1 →
  map_to_list (fold_left (fun m '(k, v) => <[k := v]> m) l (∅ : gmap string V))
  ≡ₚ l.
Proof.
  intros Hnd. apply NoDup_Permutation.
  - apply NoDup_map_to_list.
  - by eapply NoDup_fmap_1.
  - intros [k v]. rewrite elem_of_map_to_list. by apply fold_insert_lookup.
Qed.

End InsertFold.

Lemma UnmarshalJSON_fold (l : list (string * JSON)) (om : OrderedMap) :
  fold_left (fun om '(key, value) => om ++ [KVPair.mk key value]) l om
  = om ++ ((fun p => KVPair.mk p.1 p.2) <$> l).
Proof.
  revert om. induction l as [|[k v] l IH]; intros om; simpl.
  - by rewrite app_nil_r.
  - rewrite IH. by rewrite <- app_assoc.
Qed.

Lemma UnmarshalJSON_eq rangeOrder data :
  UnmarshalJSON rangeOrder data
  = (fun p => KVPair.mk p.1 p.2) <$> rangeOrder (GoJSON.UnmarshalMap data).
Proof. unfold UnmarshalJSON. by rewrite UnmarshalJSON_fold. Qed.

Lemma Get_Some (om : OrderedMap) key v :
  NoDup (KVPair.Key <$> om) →
  Get om key = Some v ↔ KVPair.mk key v ∈ om.
Proof.
  induction om as [|[k' v'] om IH]; intros Hnd; simpl.
  - split; [done|]. by intros ?%elem_of_nil.
  - apply NoDup_cons in Hnd as [Hfresh Hnd].
    rewrite elem_of_cons. destruct (String.eqb_spec k' key) as [->|Hne].
    + split.
      * intros [= ->]. by left.
      * intros [[= ->]|Hin]; [done|]. exfalso. apply Hfresh.
        apply list_elem_of_fmap. by exists (KVPair.mk key v).
    + rewrite IH by done. split; [by right|].
      intros [[= -> ->]|]; done.
Qed.

(** The parsed file, seen through the map it was decoded from. *)
Lemma UnmarshalJSON_Get rangeOrder data key :
  (∀ m : gmap string JSON, rangeOrder m ≡ₚ map_to_list m) →
  NoDup (KVPair.Key <$> UnmarshalJSON rangeOrder data)
  ∧ Get (UnmarshalJSON rangeOrder data) key = GoJSON.UnmarshalMap data !! key.
Proof.
  intros Hrange. rewrite UnmarshalJSON_eq.
  set (m := GoJSON.UnmarshalMap data).
  assert (NoDup (KVPair.Key <$> ((fun p => KVPair.mk p.1 p.2) <$> rangeOrder m)))
    as Hnd.
  { rewrite <- list_fmap_compose.
    rewrite (Hrange m). apply NoDup_fst_map_to_list. }
  split; [done|].
  destruct (m !! key) as [v|] eqn:E.
  - apply Get_Some; [done|]. apply list_elem_of_fmap.
    exists (key, v). split; [done|].
    rewrite (Hrange m). by apply elem_of_map_to_list.
  - destruct (Get _ key) as [v|] eqn:G; [|done].
    apply Get_Some in G; [|done].
    apply list_elem_of_fmap in G as ([k' v'] & [= -> ->] & Hin).
    rewrite (Hrange m) in Hin. apply elem_of_map_to_list in Hin. congruence.
Qed.

Lemma frontMatterEntry_fold all (l : OrderedMap) fm k :
  NoDup (KVPair.Key <$> l) →
  fold_left (frontMatterEntry all) l fm !! k
  = match (if HasPrefix k "@" then None else Get l k) with
    | Some v => Some (Entry (translationEntry v (Get all ("@" +:+ k))))
    | None => fm !! k
    end.
Proof.
  revert fm. induction l as [|[k' v'] l IH]; intros fm Hnd; simpl.
  - by destruct (HasPrefix k "@").
  - apply NoDup_cons in Hnd as [Hfresh Hnd]. rewrite IH by done.
    unfold frontMatterEntry. simpl.
    destruct (HasPrefix k "@") eqn:Hk.
    + destruct (HasPrefix k' "@") eqn:Hk'; [done|].
      rewrite lookup_insert_ne; [done|]. intros ->. congruence.
    + destruct (String.eqb_spec k' k) as [->|Hne].
      * assert (Get l k = None) as ->.
        { destruct (Get l k) as [v|] eqn:G; [|done]. exfalso.
          apply Get_Some in G; [|done]. apply Hfresh.
          apply list_elem_of_fmap. by exists (KVPair.mk k v). }
        rewrite Hk, lookup_insert_eq. unfold translationEntry.
        by destruct (Get all ("@" +:+ k)).
      * destruct (Get l k) as [v|]; [done|].
        destruct (HasPrefix k' "@"); [done|].
        by rewrite lookup_insert_ne.
Qed.

Lemma ARBPreProcess_lookup rangeOrder data k :
  (∀ m : gmap string JSON, rangeOrder m ≡ₚ map_to_list m) →
  ARBPreProcess (UnmarshalJSON rangeOrder data) !! k
  = frontMatterOf (GoJSON.UnmarshalMap data) k.
Proof.
  intros Hrange. unfold ARBPreProcess, frontMatterOf.
  destruct (UnmarshalJSON_Get rangeOrder data k Hrange) as [Hnd Hget].
  destruct (UnmarshalJSON_Get rangeOrder data ("@" +:+ k) Hrange) as [_ Hmeta].
  rewrite frontMatterEntry_fold by done. rewrite Hget, Hmeta, lookup_empty.
  destruct (HasPrefix k "@"); [done|]. by destruct (_ !! k).
Qed.

Lemma translationEntry_value v md :
  translationEntry v md !! "value" = Some v.
Proof. by destruct md. Qed.

Lemma translationEntry_metadata v md :
  translationEntry v md !! "metadata" = md.
Proof. by destruct md. Qed.

(** *** The reverse conversion as a function of the front matter *)

Lemma YAMLToMapStringInterface_listing document (fm : gmap string FrontValue) :
  document ≡ₚ map_to_list fm →
  YAMLToMapStringInterface document = Some fm.
Proof.
  intros Hdoc. unfold YAMLToMapStringInterface.
  rewrite bool_decide_eq_true_2.
  - f_equal. symmetry. by apply list_to_map_flip.
  - rewrite Hdoc. apply NoDup_fst_map_to_list.
Qed.

Lemma getOrderedKeys_Permutation {X} (data : gmap string X) :
  getOrderedKeys data ≡ₚ (map_to_list data).*1.
Proof. unfold getOrderedKeys, GoSort.Strings. apply Slice_Permutation. Qed.

Lemma rebuildArbData_eq fm keys acc :
  Forall (fun k => ∃ e, fm !! k = Some (Entry e)) keys →
  rebuildArbData fm keys acc = Some (acc ++ (keys ≫= entryPairs fm)).
Proof.
  intros Hkeys. revert acc.
  induction Hkeys as [|k keys [e He] Hkeys IH]; intros acc; simpl.
  - by rewrite app_nil_r.
  - rewrite He, IH. f_equal. unfold entryPairs. rewrite He.
    destruct (e !! "metadata"); simpl; by rewrite <- !app_assoc.
Qed.

Lemma MarshalJSON_Permutation (om : OrderedMap) :
  NoDup (KVPair.Key <$> om) → MarshalJSON om ≡ₚ pairOf <$> om.
Proof.
  intros Hnd. unfold MarshalJSON, GoJSON.MarshalMap.
  rewrite Slice_Permutation.
  assert (∀ (l : OrderedMap) (m : gmap string JSON),
            fold_left (fun m kv => <[KVPair.Key kv := KVPair.Value kv]> m) l m
            = fold_left (fun m '(k, v) => <[k := v]> m) (pairOf <$> l) m) as ->.
  { induction l as [|kv l IH]; intros m; simpl; [done|]. by rewrite IH. }
  apply fold_insert_to_list. by rewrite <- list_fmap_compose.
Qed.

Section RebuiltEntries.

Variables (m : gmap string JSON) (fm : gmap string FrontValue).
Hypothesis Hfm : ∀ k, fm !! k = frontMatterOf m k.

Lemma entryPairs_decoded k :
  entryPairs fm k
  = if HasPrefix k "@" then []
    else match m !! k with
         | Some v =>
             KVPair.mk k v
             :: match m !! ("@" +:+ k) with
                | Some md => [KVPair.mk ("@" +:+ k) md]
                | None => []
                end
         | None => []
         end.
Proof.
  unfold entryPairs. rewrite Hfm. unfold frontMatterOf.
  destruct (HasPrefix k "@"); [done|]. destruct (m !! k) as [v|]; [|done].
  by rewrite translationEntry_value, translationEntry_metadata.
Qed.

Lemma frontMatter_key k :
  is_Some (fm !! k) ↔ HasPrefix k "@" = false ∧ is_Some (m !! k).
Proof.
  rewrite Hfm. unfold frontMatterOf.
  destruct (HasPrefix k "@"), (m !! k); split;
    try (intros [? ?]; done); try (intros [? [? ?]]; done); eauto.
Qed.

Lemma frontMatter_entries keys :
  keys ≡ₚ (map_to_list fm).*1 →
  Forall (fun k => ∃ e, fm !! k = Some (Entry e)) keys.
Proof.
  intros Hkeys. apply Forall_forall. intros k Hk.
  rewrite Hkeys in Hk. apply list_elem_of_fmap in Hk as ([k' x] & -> & Hin).
  apply elem_of_map_to_list in Hin. simpl.
  rewrite Hfm in *. unfold frontMatterOf in *.
  destruct (HasPrefix k' "@"); [done|]. destruct (m !! k'); [|done]. eauto.
Qed.

Lemma entryPairs_keys k q :
  q ∈ KVPair.Key <$> entryPairs fm k →
  HasPrefix k "@" = false ∧ (q = k ∨ q = "@" +:+ k).
Proof.
  rewrite entryPairs_decoded.
  destruct (HasPrefix k "@"); [by intros ?%elem_of_nil|].
  destruct (m !! k); [|by intros ?%elem_of_nil].
  destruct (m !! ("@" +:+ k)); simpl; set_solver.
Qed.

Lemma entryPairs_NoDup k : NoDup (KVPair.Key <$> entryPairs fm k).
Proof.
  rewrite entryPairs_decoded.
  destruct (HasPrefix k "@") eqn:Hk; [constructor|].
  destruct (m !! k); [|constructor].
  destruct (m !! ("@" +:+ k)); simpl; repeat constructor; try set_solver.
  intros Hin. apply list_elem_of_singleton in Hin.
  rewrite Hin in Hk. discriminate.
Qed.

Lemma rebuilt_NoDup keys :
  NoDup keys → NoDup (KVPair.Key <$> (keys ≫= entryPairs fm)).
Proof.
  induction 1 as [|k keys Hfresh Hnd IH]; simpl; [constructor|].
  rewrite fmap_app. apply NoDup_app. split; [apply entryPairs_NoDup|].
  split; [|done]. intros q Hq Hin.
  apply entryPairs_keys in Hq as [Hk Hq].
  apply list_elem_of_fmap in Hin as (kv & -> & Hin).
  apply list_elem_of_bind in Hin as (k' & Hin & Hk').
  assert (KVPair.Key kv ∈ KVPair.Key <$> entryPairs fm k') as Hkey.
  { apply list_elem_of_fmap. by exists kv. }
  apply entryPairs_keys in Hkey as [Hk'' Hkey].
  destruct Hq as [Hq|Hq], Hkey as [Hkey|Hkey]; rewrite Hq in Hkey.
  - by subst.
  - rewrite Hkey in Hk. discriminate.
  - rewrite <- Hkey in Hk''. discriminate.
  - cbn in Hkey. injection Hkey as Heq. change (k = k') in Heq. by subst.
Qed.

Lemma rebuilt_elem keys q x :
  keys ≡ₚ (map_to_list fm).*1 →
  (∀ key, is_Some (m !! key) → HasPrefix key "@" = true →
     ∃ base, key = "@" +:+ base ∧ HasPrefix base "@" = false
             ∧ is_Some (m !! base)) →
  (q, x) ∈ pairOf <$> (keys ≫= entryPairs fm) ↔ m !! q = Some x.
Proof.
  intros Hkeys Hann.
  assert (∀ k, k ∈ keys ↔ HasPrefix k "@" = false ∧ is_Some (m !! k)) as Hin.
  { intros k. rewrite Hkeys, <- frontMatter_key.
    rewrite list_elem_of_fmap. split.
    - intros ([k' v] & -> & Hv). apply elem_of_map_to_list in Hv. by eexists.
    - intros [v Hv]. exists (k, v). split; [done|].
      by apply elem_of_map_to_list. }
  rewrite list_elem_of_fmap. split.
  - intros (kv & Heq & Hkv).
    apply list_elem_of_bind in Hkv as (k & Hkv & Hk).
    rewrite entryPairs_decoded in Hkv.
    destruct (HasPrefix k "@"); [by apply elem_of_nil in Hkv|].
    destruct (m !! k) as [v|] eqn:Hv; [|by apply elem_of_nil in Hkv].
    destruct (m !! ("@" +:+ k)) as [md|] eqn:Hmd;
      repeat (apply elem_of_cons in Hkv as [->|Hkv]);
      try (by apply elem_of_nil in Hkv);
      injection Heq as -> ->; done.
  - intros Hq. destruct (HasPrefix q "@") eqn:Hpre.
    + destruct (Hann q (mk_is_Some _ _ Hq) Hpre) as (base & -> & Hbase & [v Hv]).
      exists (KVPair.mk ("@" +:+ base) x). split; [done|].
      apply list_elem_of_bind. exists base. split; [|apply Hin; eauto].
      rewrite entryPairs_decoded, Hbase, Hv, Hq. set_solver.
    + exists (KVPair.mk q x). split; [done|].
      apply list_elem_of_bind. exists q. split; [|apply Hin; eauto].
      rewrite entryPairs_decoded, Hpre, Hq. set_solver.
Qed.

End RebuiltEntries.

Lemma ARBPostProcess_frontMatter document fm m :
  document ≡ₚ map_to_list fm →
  (∀ k, fm !! k = frontMatterOf m k) →
  ARBPostProcess document
  = Some (MarshalJSON (getOrderedKeys fm ≫= entryPairs fm)).
Proof.
  intros Hdoc Hfm. unfold ARBPostProcess.
  rewrite (YAMLToMapStringInterface_listing _ _ Hdoc).
  rewrite rebuildArbData_eq; [done|].
  eapply frontMatter_entries; [exact Hfm|].
  apply getOrderedKeys_Permutation.
Qed.

Lemma UnmarshalMap_lookup data k v :
  NoDup data.*1 → GoJSON.UnmarshalMap data !! k = Some v ↔ (k, v) ∈ data.
Proof. apply fold_insert_lookup. Qed.

Lemma UnmarshalMap_Permutation data data' :
  NoDup data.*1 → data' ≡ₚ data →
  GoJSON.UnmarshalMap data' = GoJSON.UnmarshalMap data.
Proof.
  intros Hnd Hperm. apply map_eq. intros k.
  apply option_eq. intros v.
  rewrite !UnmarshalMap_lookup; [by rewrite Hperm|done|by rewrite Hperm].
Qed.




(** * Further properties of the codecs *)

(** ** Widget detection *)

Section Detection.

Variables parsesAsFloat parsesAsDate : string → bool.

Lemma detectFlags_fold records colIndex m f b d :
  fold_left
    (fun '(isMultilineText, isFloat, isBoolean, isDate) record =>
       match record !! colIndex with
       | None => (isMultilineText, isFloat, isBoolean, isDate)
       | Some value =>
           (isMultilineText || ContainsNewline value,
            isFloat && parsesAsFloat value,
            isBoolean && isBooleanWord value,
            isDate && parsesAsDate value)
       end)
    records (m, f, b, d)
  = (m || existsb ContainsNewline (columnCells records colIndex),
     f && forallb parsesAsFloat (columnCells records colIndex),
     b && forallb isBooleanWord (columnCells records colIndex),
     d && forallb parsesAsDate (columnCells records colIndex)).
Proof.
  revert m f b d. unfold columnCells.
  induction records as [|record records IH]; intros m f b d; simpl.
  - by rewrite orb_false_r, !andb_true_r.
  - destruct (record !! colIndex) as [value|]; simpl; [|apply IH].
    rewrite IH. by rewrite <- orb_assoc, <- !andb_assoc.
Qed.

(** The widget of a column is decided by its cells alone, in this order
    of precedence: markdown when some cell holds a line break, else
    boolean when every cell is a boolean word, else datetime when every
    cell parses as a date, else number when every cell parses as a float,
    else string.  Records too short to reach the column do not count. *)
Theorem detectFieldType_cells (records : list (list string)) (colIndex : nat) :
  detectFieldType parsesAsFloat parsesAsDate records colIndex
  = let cells := columnCells records colIndex in
    if existsb ContainsNewline cells then "markdown"
    else if forallb isBooleanWord cells then "boolean"
    else if forallb parsesAsDate cells then "datetime"
    else if forallb parsesAsFloat cells then "number"
    else "string".
Proof.
  unfold detectFieldType, detectFlags. rewrite detectFlags_fold. simpl.
  repeat match goal with |- context [if ?c then _ else _] => destruct c end;
    reflexivity.
Qed.

Lemma columnCells_short records colIndex :
  Forall (fun record : list string => (length record ≤ colIndex)%nat) records →
  columnCells records colIndex = [].
Proof.
  unfold columnCells. induction 1 as [|record records Hlen _ IH]; simpl; [done|].
  by rewrite (lookup_ge_None_2 record colIndex Hlen).
Qed.

(** A column that no record reaches, as every column of a table with a
    header row only, is given the boolean widget. *)
Theorem detectFieldType_no_cells (records : list (list string)) (colIndex : nat) :
  Forall (fun record : list string => (length record ≤ colIndex)%nat) records →
  detectFieldType parsesAsFloat parsesAsDate records colIndex = "boolean".
Proof.
  intros Hshort. unfold detectFieldType, detectFlags.
  rewrite detectFlags_fold, (columnCells_short _ _ Hshort). reflexivity.
Qed.

End Detection.

Lemma detectFieldType_no_cells_witness :
  detectFieldType (fun _ => false) (fun _ => false) [["Alice"]; []] 1
  = "boolean".
Proof.
  apply (detectFieldType_no_cells (fun _ => false) (fun _ => false)
           [["Alice"]; []] 1).
  repeat constructor.
Defined.

(** ** Lookup in an ordered document *)

(** [Get] yields the value of the first entry with the key, whatever
    follows it, and fails exactly for a key that no entry has. *)
Theorem Get_first_match (om : OrderedMap) (key : string) :
  (Get om key = None ↔ key ∉ KVPair.Key <$> om)
  ∧ (∀ before kv after,
       om = before ++ kv :: after →
       KVPair.Key kv = key →
       key ∉ KVPair.Key <$> before →
       Get om key = Some (KVPair.Value kv)).
Proof.
  split.
  - induction om as [|kv om IH]; simpl.
    + split; [intros _; apply not_elem_of_nil|done].
    + destruct (String.eqb_spec (KVPair.Key kv) key) as [<-|Hne].
      * split; [done|]. intros Hnot. destruct Hnot. apply elem_of_cons. by left.
      * rewrite IH, not_elem_of_cons. naive_solver.
  - intros before kv after -> Hkey. revert key Hkey.
    induction before as [|kv' before IH]; intros key Hkey Hnot; simpl.
    + by rewrite (proj2 (String.eqb_eq _ _) Hkey).
    + rewrite fmap_cons, not_elem_of_cons in Hnot. destruct Hnot as [Hne Hnot].
      destruct (String.eqb_spec (KVPair.Key kv') key) as [Heq|_]; [by destruct Hne|].
      by apply IH.
Qed.

Lemma Get_first_match_witness :
  Get [KVPair.mk "a" (JNumber 1); KVPair.mk "b" (JNumber 2);
       KVPair.mk "b" (JNumber 3)] "b"
  = Some (JNumber 2).
Proof.
  refine (proj2 (Get_first_match _ "b") [KVPair.mk "a" (JNumber 1)]
            (KVPair.mk "b" (JNumber 2)) [KVPair.mk "b" (JNumber 3)] _ _ _).
  - reflexivity.
  - reflexivity.
  - intros Hin. apply list_elem_of_singleton in Hin. discriminate Hin.
Defined.

(** ** Reserved names: where the aliases collide *)

(** Two column names are stored under the same key exactly when they are
    equal or are the reserved name [data] and its own alias
    [decapta_data]. *)
Theorem addPrefixIfReserved_collision (a b : string) :
  addPrefixIfReserved a = addPrefixIfReserved b
  ↔ a = b
    ∨ (a = "data" ∧ b = decaptaPrefix +:+ "data")
    ∨ (a = decaptaPrefix +:+ "data" ∧ b = "data").
Proof.
  unfold addPrefixIfReserved.
  destruct (isReserved a) eqn:Ha; destruct (isReserved b) eqn:Hb.
  - apply isReserved_data in Ha as ->. apply isReserved_data in Hb as ->.
    split; [by left|done].
  - apply isReserved_data in Ha as ->. split.
    + intros <-. right. by left.
    + intros [<-|[[_ ->]|[Heq _]]].
      * vm_compute in Hb. discriminate Hb.
      * reflexivity.
      * vm_compute in Heq. discriminate Heq.
  - apply isReserved_data in Hb as ->. split.
    + intros ->. right. by right.
    + intros [->|[[_ Heq]|[-> _]]].
      * vm_compute in Ha. discriminate Ha.
      * vm_compute in Heq. discriminate Heq.
      * reflexivity.
  - split; [by left|].
    intros [->|[[-> _]|[_ ->]]]; [done|..].
    + vm_compute in Ha. discriminate Ha.
    + vm_compute in Hb. discriminate Hb.
Qed.

(** Re-aliasing a restored column name gives the stored key back for
    every key but [data] itself, which no document written by the
    forward conversion has. *)
Theorem addPrefix_removePrefix (name : string) :
  addPrefixIfReserved (removePrefixIfReserved name) = name ↔ name ≠ "data".
Proof.
  unfold removePrefixIfReserved, HasPrefix, TrimPrefix.
  destruct (stripPrefix decaptaPrefix name) as [r|] eqn:Hstrip; simpl.
  - apply stripPrefix_Some in Hstrip as ->.
    assert (decaptaPrefix +:+ r ≠ "data") as Hne.
    { vm_compute. discriminate. }
    destruct (isReserved r) eqn:Hr.
    + apply isReserved_data in Hr as ->. split; [done|reflexivity].
    + split; [done|].
      intros _. unfold addPrefixIfReserved.
      destruct (isReserved (decaptaPrefix +:+ r)) eqn:Hres; [|done].
      by apply isReserved_data in Hres.
  - unfold addPrefixIfReserved. destruct (isReserved name) eqn:Hres.
    + apply isReserved_data in Hres as ->. split; [|done].
      vm_compute. discriminate.
    + split; [|done]. intros _ ->. vm_compute in Hres. discriminate Hres.
Qed.

(** ** The documents of a table *)

Lemma isReserved_addPrefixIfReserved h :
  isReserved (addPrefixIfReserved h) = false.
Proof.
  unfold addPrefixIfReserved. destruct (isReserved h) eqn:Hres; [|done].
  apply isReserved_data in Hres as ->. reflexivity.
Qed.

Lemma rowData_is_Some headers record k :
  is_Some (rowData headers record !! k)
  ↔ ∃ j h, j < length record ∧ headers !! j = Some h
           ∧ k = addPrefixIfReserved h.
Proof.
  induction record as [|v record IH] using rev_ind.
  - unfold rowData. simpl. rewrite lookup_empty. split.
    + by intros [? ?].
    + intros (j & h & Hj & _). simpl in Hj. lia.
  - rewrite rowData_snoc, length_app. simpl.
    destruct (headers !! length record) as [header|] eqn:Hh.
    + destruct (decide (addPrefixIfReserved header = k)) as [<-|Hne].
      * rewrite lookup_insert_eq. split; [|by eauto].
        intros _. exists (length record), header. split; [lia|done].
      * rewrite lookup_insert_ne by done. rewrite IH. split.
        -- intros (j & h & Hj & Hjh & ->). exists j, h. split; [lia|done].
        -- intros (j & h & Hj & Hjh & ->).
           destruct (decide (j = length record)) as [->|Hjne]; [congruence|].
           exists j, h. split; [lia|done].
    + rewrite IH. split.
      * intros (j & h & Hj & Hjh & ->). exists j, h. split; [lia|done].
      * intros (j & h & Hj & Hjh & ->).
        destruct (decide (j = length record)) as [->|Hjne]; [congruence|].
        exists j, h. split; [lia|done].
Qed.

(** No document written for a row has a reserved name among its keys,
    whatever the header row, the record and the slug fields are. *)
Theorem rowDocument_no_reserved_key
    (headers record slugFields : list string) (k : string) :
  isReserved k = true →
  rowDocument headers record slugFields !! k = None.
Proof.
  intros Hres. unfold rowDocument.
  rewrite lookup_insert_ne.
  - apply eq_None_not_Some. rewrite rowData_is_Some.
    intros (j & h & _ & _ & ->).
    by rewrite isReserved_addPrefixIfReserved in Hres.
  - intros <-. vm_compute in Hres. discriminate Hres.
Qed.

Lemma rowDocument_no_reserved_key_witness :
  rowDocument ["name"; "data"] ["Alice"; "x"] ["data"] !! "data" = None.
Proof.
  apply (rowDocument_no_reserved_key ["name"; "data"] ["Alice"; "x"] ["data"]).
  reflexivity.
Defined.

Lemma csvCollection_field_names pf pd contentDir csvName headers rows :
  Field.Name <$> Collection.Fields
    (csvCollection pf pd contentDir csvName headers rows)
  = decaptaIDField :: (addPrefixIfReserved <$> headers).
Proof.
  unfold csvCollection. cbn [Collection.Fields].
  rewrite fmap_cons, fmap_imap. f_equal.
  rewrite <- (imap_const addPrefixIfReserved headers).
  by apply imap_ext.
Qed.

(** The fields that the generated schema descriptor declares are the
    keys of the documents the forward conversion writes: a key is present
    in the document of a full-width record exactly when a field of the
    descriptor has that name. *)
Theorem csvCollection_declares_document_keys
    (pf pd : string → bool) (contentDir csvName : string)
    (headers : list string) (rows : list (list string))
    (record slugFields : list string) (k : string) :
  length record = length headers →
  is_Some (rowDocument headers record slugFields !! k)
  ↔ k ∈ Field.Name <$> Collection.Fields
          (csvCollection pf pd contentDir csvName headers rows).
Proof.
  intros Hlen. rewrite csvCollection_field_names. unfold rowDocument.
  destruct (decide (k = decaptaIDField)) as [->|Hne].
  - rewrite lookup_insert_eq. split; [intros _; by left|by eauto].
  - rewrite lookup_insert_ne by done. rewrite rowData_is_Some.
    rewrite elem_of_cons, list_elem_of_fmap. split.
    + intros (j & h & _ & Hjh & ->). right. exists h. split; [done|].
      by eapply list_elem_of_lookup_2.
    + intros [?|(h & -> & Hin)]; [done|].
      apply list_elem_of_lookup in Hin as [j Hj]. exists j, h.
      split; [|done]. rewrite Hlen. by eapply lookup_lt_Some.
Qed.

Lemma csvCollection_declares_document_keys_witness :
  is_Some (rowDocument ["name"; "data"] ["Alice"; "x"] ["name"] !! "decapta_data")
  ↔ "decapta_data" ∈ Field.Name <$> Collection.Fields
       (csvCollection (fun _ => false) (fun _ => false) "content" "people"
          ["name"; "data"] [["Alice"; "x"]]).
Proof.
  apply (csvCollection_declares_document_keys (fun _ => false) (fun _ => false)
           "content" "people" ["name"; "data"] [["Alice"; "x"]]
           ["Alice"; "x"] ["name"] "decapta_data").
  reflexivity.
Defined.

(** ** What the forward conversion of a table writes *)

Section ForwardWrites.

Variables headers slugFields : list string.

Lemma writeEntityFiles_lookup_other rows files name :
  (∀ i, i < length rows → name ≠ entityFileName i) →
  writeEntityFiles headers slugFields rows files !! name = files !! name.
Proof.
  induction rows as [|record rows IH] using rev_ind; intros Hname.
  - reflexivity.
  - rewrite writeEntityFiles_snoc. rewrite length_app in Hname. simpl in Hname.
    rewrite lookup_insert_ne.
    + apply IH. intros i Hi. apply Hname. lia.
    + intros Heq. apply (Hname (length rows)); [lia|done].
Qed.

Lemma writeEntityFiles_lookup_row rows files i record :
  (Z.of_nat (length rows) ≤ GoStrconv.maxInt)%Z →
  rows !! i = Some record →
  writeEntityFiles headers slugFields rows files !! entityFileName i
  = Some (rowDocument headers record slugFields).
Proof.
  induction rows as [|last rows IH] using rev_ind; intros Hlen Hi; [done|].
  rewrite length_app in Hlen. simpl in Hlen.
  rewrite writeEntityFiles_snoc.
  destruct (decide (i = length rows)) as [->|Hne].
  - rewrite lookup_insert_eq.
    rewrite lookup_app_r, Nat.sub_diag in Hi by lia. by injection Hi as ->.
  - assert (i < length rows) as Hlt.
    { apply lookup_lt_Some in Hi. rewrite length_app in Hi. simpl in Hi. lia. }
    rewrite lookup_insert_ne.
    + apply IH; [lia|]. by rewrite lookup_app_l in Hi.
    + intros Heq. apply entityFileName_inj in Heq; lia.
Qed.

Lemma writeEntityFiles_present rows files :
  (∀ i record, rows !! i = Some record →
     files !! entityFileName i = Some (rowDocument headers record slugFields)) →
  writeEntityFiles headers slugFields rows files = files.
Proof.
  induction rows as [|last rows IH] using rev_ind; intros Hfiles; [done|].
  rewrite writeEntityFiles_snoc, IH.
  - apply insert_id, Hfiles. by rewrite lookup_app_r, Nat.sub_diag by lia.
  - intros i record Hi. apply Hfiles. by apply lookup_app_l_Some.
Qed.

End ForwardWrites.

(** The forward conversion of a table stores the document of row [i]
    under the name [i+1.yaml], and leaves every file of the content
    directory with another name as it was; an empty table touches
    nothing. *)
Theorem CSVPreProcess_files
    (headers : list string) (rows : list (list string))
    (slugFields : list string) (dir : ContentDir) :
  (Z.of_nat (length rows) ≤ GoStrconv.maxInt)%Z →
  (∀ i record, rows !! i = Some record →
     entityFiles (CSVPreProcess (headers :: rows) slugFields dir)
       !! entityFileName i
     = Some (rowDocument headers record slugFields))
  ∧ (∀ name, (∀ i, i < length rows → name ≠ entityFileName i) →
       entityFiles (CSVPreProcess (headers :: rows) slugFields dir) !! name
       = entityFiles dir !! name)
  ∧ CSVPreProcess [] slugFields dir = dir.
Proof.
  intros Hlen. split; [|split]; [| |done].
  - intros i record Hi. simpl. by apply writeEntityFiles_lookup_row.
  - intros name Hname. simpl. by apply writeEntityFiles_lookup_other.
Qed.

Lemma CSVPreProcess_files_witness :
  entityFiles (CSVPreProcess [["name"]; ["Alice"]; ["Bob"]] ["name"]
                 {| columnOrderFile := None;
                    entityFiles := {[ "9.yaml" := ∅ ]} |}) !! "9.yaml"
  = Some ∅.
Proof.
  refine (proj1 (proj2 (CSVPreProcess_files ["name"] [["Alice"]; ["Bob"]]
                          ["name"] _ _)) "9.yaml" _).
  - vm_compute. discriminate.
  - intros i Hi. simpl in Hi.
    destruct i as [|[|i]]; [vm_compute; discriminate..|lia].
Defined.

(** Converting a table again after rows were removed from its end (or
    with no change at all) leaves the content directory exactly as the
    earlier conversion wrote it: the documents of the removed rows are not
    deleted. *)
Theorem CSVPreProcess_shortened
    (headers : list string) (rows removed : list (list string))
    (slugFields : list string) (dir : ContentDir) :
  (Z.of_nat (length (rows ++ removed)) ≤ GoStrconv.maxInt)%Z →
  CSVPreProcess (headers :: rows) slugFields
    (CSVPreProcess (headers :: rows ++ removed) slugFields dir)
  = CSVPreProcess (headers :: rows ++ removed) slugFields dir.
Proof.
  intros Hlen. unfold CSVPreProcess. cbn [entityFiles]. f_equal.
  apply writeEntityFiles_present. intros i record Hi.
  apply writeEntityFiles_lookup_row; [done|]. by apply lookup_app_l_Some.
Qed.

Lemma CSVPreProcess_shortened_witness :
  CSVPreProcess [["name"]; ["Alice"]] ["name"]
    (CSVPreProcess [["name"]; ["Alice"]; ["Bob"]] ["name"] emptyContentDir)
  = CSVPreProcess [["name"]; ["Alice"]; ["Bob"]] ["name"] emptyContentDir.
Proof.
  apply (CSVPreProcess_shortened ["name"] [["Alice"]] [["Bob"]] ["name"]
           emptyContentDir).
  vm_compute. discriminate.
Defined.

(** ** The shape of a regenerated table *)

(** The reverse conversion fails only when the Column Order Record is
    missing.  Otherwise it writes the recorded column names with their
    aliases removed, then one row per [.yaml] document of the directory
    other than the Column Order Record itself, each built by [csvRow]
    and as wide as the header. *)
Theorem CSVPostProcess_shape (csvName : string) (dir : ContentDir) :
  (CSVPostProcess csvName dir = None ↔ columnOrderFile dir = None)
  ∧ (∀ headers, columnOrderFile dir = Some headers →
       ∃ rows,
         CSVPostProcess csvName dir
         = Some ((removePrefixIfReserved <$> headers) :: rows)
         ∧ rows ≡ₚ csvRow headers
                   <$> (filter (fun f => isRecordFile csvName f.1)
                          (map_to_list (entityFiles dir))).*2
         ∧ Forall (fun row => length row = length headers) rows).
Proof.
  unfold CSVPostProcess. split.
  - destruct (columnOrderFile dir); [split; discriminate|done].
  - intros headers ->. eexists. split; [reflexivity|]. split.
    + unfold recordFiles. by rewrite sortedFiles_Permutation.
    + apply Forall_fmap, Forall_true. intros doc. simpl.
      unfold csvRow. by rewrite length_fmap.
Qed.

Lemma CSVPostProcess_shape_witness :
  ∃ rows,
    CSVPostProcess "t"
      {| columnOrderFile := Some ["a"; "decapta_data"];
         entityFiles := {[ "1.yaml" := {[ "a" := "x" ]} ]} |}
    = Some (["a"; "data"] :: rows)
    ∧ Forall (fun row => length row = 2) rows.
Proof.
  destruct (proj2 (CSVPostProcess_shape "t"
                     {| columnOrderFile := Some ["a"; "decapta_data"];
                        entityFiles := {[ "1.yaml" := {[ "a" := "x" ]} ]} |})
              ["a"; "decapta_data"] eq_refl)
    as (rows & Hrows & _ & Hwidth).
  exists rows. split; [exact Hrows|exact Hwidth].
Defined.

(** ** Merging a field list into an existing one *)

Lemma findFieldByNameFrom_app_found fieldNodes extra fieldName x :
  findFieldByNameFrom fieldNodes fieldName = Ok (Some x) →
  findFieldByNameFrom (fieldNodes ++ extra) fieldName = Ok (Some x).
Proof.
  induction fieldNodes as [|fieldNode fieldNodes IH]; simpl; [done|].
  destruct (findFieldInNode fieldNode "name") as [[n|]|]; simpl; [|done..].
  by destruct (String.eqb (Value n) fieldName).
Qed.

Lemma findFieldByNameFrom_app_missing fieldNodes extra fieldName :
  findFieldByNameFrom fieldNodes fieldName = Ok None →
  findFieldByNameFrom (fieldNodes ++ extra) fieldName
  = findFieldByNameFrom extra fieldName.
Proof.
  induction fieldNodes as [|fieldNode fieldNodes IH]; simpl; [done|].
  destruct (findFieldInNode fieldNode "name") as [[n|]|]; simpl; [|done..].
  by destruct (String.eqb (Value n) fieldName).
Qed.

Lemma findFieldByNameFrom_app_None fieldNodes extra fieldName :
  findFieldByNameFrom (fieldNodes ++ extra) fieldName = Ok None →
  findFieldByNameFrom fieldNodes fieldName = Ok None.
Proof.
  induction fieldNodes as [|fieldNode fieldNodes IH]; simpl; [done|].
  destruct (findFieldInNode fieldNode "name") as [[n|]|]; simpl; [|done..].
  by destruct (String.eqb (Value n) fieldName).
Qed.

Lemma mergeFieldsFrom_appends newFieldNodes existingFieldsNode merged :
  mergeFieldsFrom newFieldNodes existingFieldsNode = Ok merged →
  ∃ added,
    merged = appendContent existingFieldsNode added
    ∧ added `sublist_of` newFieldNodes
    ∧ (∀ f, f ∈ newFieldNodes →
         ∃ n x, findFieldInNode f "name" = Ok (Some n)
                ∧ findFieldByName merged (Value n) = Ok (Some x))
    ∧ (∀ f, f ∈ added →
         ∃ n, findFieldInNode f "name" = Ok (Some n)
              ∧ findFieldByName existingFieldsNode (Value n) = Ok None).
Proof.
  revert existingFieldsNode.
  induction newFieldNodes as [|f rest IH]; intros existing; simpl.
  - intros [= <-]. exists []. rewrite appendContent_nil.
    split; [done|]. split; [done|]. split; intros f Hf; by apply elem_of_nil in Hf.
  - destruct (findFieldInNode f "name") as [[n|]|] eqn:Hname; simpl; [|done..].
    destruct (findFieldByName existing (Value n)) as [[x|]|] eqn:Hfind;
      simpl; [| |done]; intros Hrest;
      destruct (IH _ Hrest) as (added & -> & Hsub & Hknown & Hnew).
    + exists added. split; [done|]. split; [by apply sublist_cons|].
      split; [|done].
      intros g [->|Hg]%elem_of_cons; [|by apply Hknown].
      exists n, x. split; [done|].
      unfold findFieldByName in *. simpl.
      by apply findFieldByNameFrom_app_found.
    + exists (f :: added). rewrite appendContent_app in *. simpl in *.
      split; [done|]. split; [by apply sublist_skip|]. split.
      * intros g [->|Hg]%elem_of_cons; [|by apply Hknown].
        exists n, f. split; [done|].
        unfold findFieldByName in *. simpl.
        rewrite (findFieldByNameFrom_app_missing _ _ _ Hfind).
        cbn [findFieldByNameFrom]. rewrite Hname. cbn [bind].
        by rewrite String.eqb_refl.
      * intros g [->|Hg]%elem_of_cons; [by eauto|].
        destruct (Hnew g Hg) as (m & Hm & Hnone). exists m. split; [done|].
        unfold findFieldByName in *. simpl in Hnone.
        by apply findFieldByNameFrom_app_None in Hnone.
Qed.

(** [mergeFields] only appends: the existing field list is kept as it
    is, the fields added are incoming fields in their incoming order, and
    each of them has a name that no existing field had.  It returns only
    when every incoming field has a name. *)
Theorem mergeFields_appends (existingFieldsNode newFieldsNode merged : Node) :
  mergeFields existingFieldsNode newFieldsNode = Ok merged →
  ∃ added,
    merged = appendContent existingFieldsNode added
    ∧ added `sublist_of` Content newFieldsNode
    ∧ (∀ f, f ∈ Content newFieldsNode →
         ∃ n, findFieldInNode f "name" = Ok (Some n))
    ∧ (∀ f, f ∈ added →
         ∃ n, findFieldInNode f "name" = Ok (Some n)
              ∧ findFieldByName existingFieldsNode (Value n) = Ok None).
Proof.
  intros Hmerge.
  destruct (mergeFieldsFrom_appends _ _ _ Hmerge)
    as (added & -> & Hsub & Hknown & Hnew).
  exists added. split; [done|]. split; [done|]. split; [|done].
  intros f Hf. destruct (Hknown f Hf) as (n & _ & Hn & _). by exists n.
Qed.

Lemma mergeFieldsFrom_known newFieldNodes existingFieldsNode :
  (∀ f, f ∈ newFieldNodes →
     ∃ n x, findFieldInNode f "name" = Ok (Some n)
            ∧ findFieldByName existingFieldsNode (Value n) = Ok (Some x)) →
  mergeFieldsFrom newFieldNodes existingFieldsNode = Ok existingFieldsNode.
Proof.
  induction newFieldNodes as [|f rest IH]; intros Hknown; simpl; [done|].
  destruct (Hknown f) as (n & x & -> & Hx); [by left|]. simpl.
  rewrite Hx. simpl. apply IH. intros g Hg. apply Hknown. by right.
Qed.

(** Merging the same field list a second time changes nothing. *)
Theorem mergeFields_idempotent (existingFieldsNode newFieldsNode merged : Node) :
  mergeFields existingFieldsNode newFieldsNode = Ok merged →
  mergeFields merged newFieldsNode = Ok merged.
Proof.
  intros Hmerge.
  destruct (mergeFieldsFrom_appends _ _ _ Hmerge) as (added & _ & _ & Hknown & _).
  by apply mergeFieldsFrom_known.
Qed.

Lemma mergeFields_appends_witness :
  ∃ added,
    appendContent sampleFieldsNode [Encode.field decaptaIDFieldDescriptor]
    = appendContent sampleFieldsNode added
    ∧ added `sublist_of` Content sampleIncomingFieldsNode.
Proof.
  destruct (mergeFields_appends sampleFieldsNode sampleIncomingFieldsNode
              (appendContent sampleFieldsNode
                 [Encode.field decaptaIDFieldDescriptor]))
    as (added & Hmerged & Hsub & _).
  - vm_compute. reflexivity.
  - exists added. split; [exact Hmerged|exact Hsub].
Defined.

Lemma mergeFields_idempotent_witness :
  mergeFields
    (appendContent sampleFieldsNode [Encode.field decaptaIDFieldDescriptor])
    sampleIncomingFieldsNode
  = Ok (appendContent sampleFieldsNode [Encode.field decaptaIDFieldDescriptor]).
Proof.
  apply (mergeFields_idempotent sampleFieldsNode sampleIncomingFieldsNode).
  vm_compute. reflexivity.
Defined.

(** ** Merging editor settings *)

Lemma findFieldInNode_found node key j :
  findFieldIndex (Content node) key = Ok (Some j) →
  ∃ v, findFieldInNode node key = Ok (Some v) ∧ Content node !! j = Some v.
Proof.
  intros Hj. unfold findFieldInNode. rewrite Hj. simpl.
  destruct (lookup_lt_is_Some_2 (Content node) j) as [v Hv].
  { by eapply findFieldIndex_lt. }
  exists v. by rewrite Hv.
Qed.

Lemma findFieldInNode_cases node key :
  isMapping node →
  findFieldInNode node key = Ok None
  ∨ ∃ j v, findFieldIndex (Content node) key = Ok (Some j)
           ∧ findFieldInNode node key = Ok (Some v).
Proof.
  intros [_ Heven].
  destruct (findFieldIndex (Content node) key) as [[j|]|] eqn:Hj.
  - right. destruct (findFieldInNode_found _ _ _ Hj) as (v & Hv & _). eauto.
  - left. unfold findFieldInNode. by rewrite Hj.
  - by apply findFieldIndex_even in Hj.
Qed.

Lemma isMapping_appendContent node extra :
  isMapping node → Nat.even (length extra) = true →
  isMapping (appendContent node extra).
Proof.
  intros [Hkind Heven] Hextra. split; [done|]. simpl.
  by apply even_length_app.
Qed.

Lemma mergeEditorFrom_settles pairs :
  Nat.even (length pairs) = true →
  ∀ existingEditorNode, isMapping existingEditorNode →
  ∃ added,
    mergeEditorFrom pairs existingEditorNode
    = Ok (appendContent existingEditorNode added)
    ∧ Nat.even (length added) = true
    ∧ ∀ extra, Nat.even (length extra) = true →
        mergeEditorFrom pairs
          (appendContent existingEditorNode (added ++ extra))
        = Ok (appendContent existingEditorNode (added ++ extra)).
Proof.
  induction pairs as [|k|k value rest IH] using pairs_ind;
    intros Hpairs existing Hmap.
  - exists []. rewrite appendContent_nil. by repeat split.
  - discriminate Hpairs.
  - specialize (IH Hpairs). cbn [mergeEditorFrom].
    destruct (findFieldInNode_cases existing (Value k) Hmap)
      as [Hnone|(j & v & Hj & Hv)].
    + rewrite Hnone. cbn [bind].
      destruct (IH (appendContent existing [k; value]))
        as (added & Hmerge & Heven & Hagain).
      { by apply isMapping_appendContent. }
      exists ([k; value] ++ added). rewrite Hmerge, appendContent_app.
      split; [done|]. split; [by apply even_length_app|].
      intros extra Hextra.
      assert (findFieldIndex
                (Content (appendContent existing (([k; value] ++ added) ++ extra)))
                (Value k) = Ok (Some (length (Content existing) + 1))) as Hk.
      { replace (Content (appendContent existing (([k; value] ++ added) ++ extra)))
          with ((Content existing ++ [k; value]) ++ (added ++ extra))
          by (simpl; by rewrite <- app_assoc).
        apply findFieldIndex_app_found.
        rewrite findFieldIndex_app_missing;
          [|apply Hmap|by apply findFieldInNode_None].
        simpl. by rewrite String.eqb_refl. }
      destruct (findFieldInNode_found _ _ _ Hk) as (w & -> & _). cbn [bind].
      specialize (Hagain extra Hextra).
      rewrite appendContent_app in Hagain. by rewrite <- app_assoc.
    + rewrite Hv. cbn [bind].
      destruct (IH existing Hmap) as (added & Hmerge & Heven & Hagain).
      exists added. split; [done|]. split; [done|].
      intros extra Hextra.
      assert (findFieldIndex
                (Content (appendContent existing (added ++ extra)))
                (Value k) = Ok (Some j)) as Hk.
      { simpl. by apply findFieldIndex_app_found. }
      destruct (findFieldInNode_found _ _ _ Hk) as (w & -> & _). cbn [bind].
      by apply Hagain.
Qed.

(** On mapping nodes [mergeEditor] always returns; it only appends
    settings, so that every setting of the existing node keeps its place
    and value, and merging the same settings again changes nothing. *)
Theorem mergeEditor_appends (existingEditorNode newEditorNode : Node) :
  isMapping existingEditorNode →
  isMapping newEditorNode →
  ∃ added,
    mergeEditor existingEditorNode newEditorNode
    = Ok (appendContent existingEditorNode added)
    ∧ isMapping (appendContent existingEditorNode added)
    ∧ (∀ key v, findFieldInNode existingEditorNode key = Ok (Some v) →
         findFieldInNode (appendContent existingEditorNode added) key
         = Ok (Some v))
    ∧ mergeEditor (appendContent existingEditorNode added) newEditorNode
      = Ok (appendContent existingEditorNode added).
Proof.
  intros Hmap [_ Hnew]. unfold mergeEditor.
  destruct (mergeEditorFrom_settles _ Hnew _ Hmap)
    as (added & Hmerge & Heven & Hagain).
  exists added. split; [done|]. split; [by apply isMapping_appendContent|].
  split.
  - intros key v Hv.
    destruct (findFieldInNode_cases existingEditorNode key Hmap)
      as [Hnone|(j & v' & Hj & Hv')]; [congruence|].
    destruct (findFieldInNode_found _ _ _ Hj) as (w & Hw & Hlook).
    assert (findFieldIndex (Content (appendContent existingEditorNode added)) key
            = Ok (Some j)) as Hj'.
    { simpl. by apply findFieldIndex_app_found. }
    destruct (findFieldInNode_found _ _ _ Hj') as (w' & -> & Hlook').
    simpl in Hlook'. rewrite (lookup_app_l_Some _ _ _ _ Hlook) in Hlook'.
    congruence.
  - specialize (Hagain [] eq_refl). by rewrite app_nil_r in Hagain.
Qed.

Lemma mergeEditor_appends_witness :
  ∃ added,
    mergeEditor sampleEditorNode sampleIncomingEditorNode
    = Ok (appendContent sampleEditorNode added)
    ∧ findFieldInNode (appendContent sampleEditorNode added) "preview"
      = Ok (Some (Encode.boolean false)).
Proof.
  destruct (mergeEditor_appends sampleEditorNode sampleIncomingEditorNode)
    as (added & Hmerge & _ & Hkeeps & _).
  - split; reflexivity.
  - split; reflexivity.
  - exists added. split; [exact Hmerge|].
    apply Hkeeps. reflexivity.
Defined.

(** ** Descriptors for new folders, and descriptors without a folder *)

Lemma upsertCollectionsFrom_unmatched collections existingNodes :
  NoDup (Collection.Folder <$> collections) →
  Forall (fun n => decodeFolder n ∉ Collection.Folder <$> collections)
    existingNodes →
  upsertCollectionsFrom collections existingNodes
  = Ok (existingNodes ++ (Encode.collection <$> collections)).
Proof.
  revert existingNodes.
  induction collections as [|d collections IH]; intros nodes Hnd Hfresh; simpl.
  - by rewrite app_nil_r.
  - apply NoDup_cons in Hnd as [Hd Hnd].
    rewrite upsertCollection_unmatched; simpl.
    + rewrite IH; [by rewrite <- app_assoc|done|].
      apply Forall_app. split.
      * eapply Forall_impl; [exact Hfresh|]. simpl.
        intros n Hn Hin. apply Hn. by right.
      * constructor; [|done]. by rewrite decodeFolder_encoded.
    + eapply Forall_impl; [exact Hfresh|]. simpl.
      intros n Hn Heq. apply Hn. rewrite Heq. by left.
Qed.



Lemma upsertCollection_folderless nodes d :
  Collection.Folder d = "" → Collection.IdentifierField d = "" →
  Forall isMapping nodes →
  Exists (fun n => decodeFolder n = "") nodes →
  settledIn nodes d.
Proof.
  intros Hfolder Hid Hmaps. unfold settledIn.
  induction Hmaps as [|n nodes Hn Hmaps IH]; intros Hex.
  - by apply Exists_nil in Hex.
  - simpl. rewrite Hfolder.
    destruct (String.eqb_spec (decodeFolder n) "") as [Heq|Hne].
    + rewrite mergeCollectionFields_eq.
      destruct (findFieldInNode n decaptaIDField) as [[v|]|] eqn:Hfind.
      * done.
      * simpl. by rewrite Hid.
      * by apply findFieldInNode_mapping in Hfind.
    + apply Exists_cons in Hex as [Heq|Hex]; [done|].
      by rewrite (IH Hex).
Qed.



(** ** The first configuration generated for a directory of tables *)

Lemma HasSuffix_TrimSuffix s suf :
  HasSuffix s suf = true → TrimSuffix s suf +:+ suf = s.
Proof.
  unfold HasSuffix, TrimSuffix, HasPrefix, TrimPrefix.
  destruct (stripPrefix (rev_string suf) (rev_string s)) as [r|] eqn:Hstrip;
    [|discriminate].
  intros _. apply stripPrefix_Some in Hstrip.
  rewrite <- (rev_string_involutive s), Hstrip, rev_string_app.
  by rewrite rev_string_involutive.
Qed.

Lemma string_app_inj_l p a b : p +:+ a = p +:+ b → a = b.
Proof. induction p as [|c p IH]; simpl; [done|]. intros [= H]. by apply IH. Qed.

Lemma csvCollections_folder pf pd contentDir ignoredFiles files c :
  c ∈ csvCollections pf pd contentDir ignoredFiles files →
  ∃ name, name ∈ files.*1 ∧ HasSuffix name ".csv" = true
          ∧ Collection.Folder c
            = GoFilepath.Join contentDir (TrimSuffix name ".csv").
Proof.
  unfold csvCollections. rewrite list_elem_of_omap.
  intros ([name records] & Hin & Hc).
  destruct (bool_decide (name ∈ ignoredFiles)); [done|].
  destruct (HasSuffix name ".csv") eqn:Hsuffix; simpl in Hc; [|done].
  destruct records as [|headers rows]; [done|]. injection Hc as <-.
  exists name. split; [|done].
  apply list_elem_of_fmap. by exists (name, headers :: rows).
Qed.

Lemma csvCollections_NoDup_folders pf pd contentDir ignoredFiles files :
  NoDup files.*1 →
  NoDup (Collection.Folder
           <$> csvCollections pf pd contentDir ignoredFiles files).
Proof.
  induction files as [|[name records] files IH]; simpl.
  - intros _. constructor.
  - intros [Hname Hnd]%NoDup_cons. specialize (IH Hnd).
    unfold csvCollections in *. simpl.
    destruct (bool_decide (name ∈ ignoredFiles)); [done|].
    destruct (HasSuffix name ".csv") eqn:Hsuffix; simpl; [|done].
    destruct records as [|headers rows]; [done|].
    rewrite fmap_cons. apply NoDup_cons. split; [|done].
    intros (c & Hfolder & Hc)%list_elem_of_fmap.
    apply csvCollections_folder in Hc as (name' & Hin & Hsuffix' & Hfolder').
    rewrite Hfolder' in Hfolder. simpl in Hfolder.
    unfold GoFilepath.Join in Hfolder.
    apply string_app_inj_l, (string_app_inj_l "/") in Hfolder.
    apply Hname.
    rewrite <- (HasSuffix_TrimSuffix _ _ Hsuffix), Hfolder.
    by rewrite (HasSuffix_TrimSuffix _ _ Hsuffix').
Qed.

(** Generating the configuration from a template that has no collections
    yet gives every table of the directory listing that is not ignored,
    is named [*.csv] and has a header row its own collection, in the
    order of the listing.  The content directory is a clean relative path
    and the name of every table, without its extension, a plain path
    element, so that joining them needs no cleaning. *)
Theorem CSVGenerateConfig_first_run
    (pf pd : string → bool) (contentDir : string) (ignoredFiles : list string)
    (files : list (string * list (list string)))
    (template top : Node) (others : list Node) :
  Content template = top :: others →
  isMapping top →
  findFieldIndex (Content top) "collections" = Ok None →
  plainPath contentDir →
  Forall (fun name => HasSuffix name ".csv" = true →
                      plainElement (TrimSuffix name ".csv")) files.*1 →
  NoDup files.*1 →
  ∃ rootNode',
    CSVGenerateConfig pf pd contentDir ignoredFiles files None template
    = Ok rootNode'
    ∧ collectionsOf rootNode'
      = Encode.collection
          <$> csvCollections pf pd contentDir ignoredFiles files.
Proof.
  intros Htemplate Htop Hnone _ _ Hnd. unfold CSVGenerateConfig, loadRootNode.
  eapply synchronize_fresh; [done..|].
  rewrite upsertCollectionsFrom_unmatched; [done| |constructor].
  by apply csvCollections_NoDup_folders.
Qed.

Lemma CSVGenerateConfig_first_run_witness :
  ∃ rootNode',
    CSVGenerateConfig (fun _ => false) (fun _ => false) "content" ["skip.csv"]
      [("people.csv", sampleTable); ("skip.csv", sampleTable);
       ("teams.csv", sampleTable)]
      None sampleTemplate
    = Ok rootNode'
    ∧ (fun node => scalarAt node "folder") <$> collectionsOf rootNode'
      = [Some "content/people"; Some "content/teams"].
Proof.
  destruct (CSVGenerateConfig_first_run (fun _ => false) (fun _ => false)
              "content" ["skip.csv"]
              [("people.csv", sampleTable); ("skip.csv", sampleTable);
               ("teams.csv", sampleTable)]
              sampleTemplate
              (Encode.mapping
                 [Encode.str "backend";
                  Encode.mapping [Encode.str "name"; Encode.str "git-gateway"]])
              [])
    as (rootNode' & Hrun & Hcollections).
  - reflexivity.
  - split; reflexivity.
  - reflexivity.
  - constructor; [|constructor].
    repeat split; try discriminate.
    simpl. rewrite !not_elem_of_cons.
    repeat split; try discriminate. apply not_elem_of_nil.
  - simpl.
    replace (TrimSuffix "people.csv" ".csv") with "people"
      by (vm_compute; reflexivity).
    replace (TrimSuffix "skip.csv" ".csv") with "skip"
      by (vm_compute; reflexivity).
    replace (TrimSuffix "teams.csv" ".csv") with "teams"
      by (vm_compute; reflexivity).
    repeat (apply Forall_cons; split); [..|apply Forall_nil_2];
      intros _; (repeat split; try discriminate);
      simpl; rewrite !not_elem_of_cons; repeat split; try discriminate;
      apply not_elem_of_nil.
  - simpl. repeat (apply NoDup_cons; split); [..|apply NoDup_nil_2];
      rewrite ?not_elem_of_cons; repeat split; try discriminate;
      apply not_elem_of_nil.
  - exists rootNode'. split; [exact Hrun|].
    rewrite Hcollections. vm_compute. reflexivity.
Defined.

(** ** Key order of a written ordered document *)

Section SliceByOrder.

Context {A : Type} (less : A → A → bool).

Let notAfter (a b : A) : Prop := less b a = false.

Hypothesis less_asym : ∀ a b, less a b = true → less b a = false.
Hypothesis notAfter_trans : ∀ a b c, notAfter a b → notAfter b c → notAfter a c.

Lemma insert_sorted x l :
  StronglySorted notAfter l → StronglySorted notAfter (GoSort.insert less x l).
Proof.
  induction 1 as [|y l Hl IH Hy]; simpl.
  - repeat constructor.
  - destruct (less x y) eqn:Hxy.
    + constructor; [by constructor|].
      constructor; [by apply less_asym|].
      eapply Forall_impl; [exact Hy|]. simpl.
      intros z Hz. eapply notAfter_trans; [|exact Hz]. by apply less_asym.
    + constructor; [exact IH|].
      rewrite (insert_Permutation less x l). by constructor.
Qed.

Lemma Slice_sorted l : StronglySorted notAfter (GoSort.Slice less l).
Proof.
  unfold GoSort.Slice.
  assert (∀ acc, StronglySorted notAfter acc →
            StronglySorted notAfter
              (fold_left (fun sorted e => GoSort.insert less e sorted) l acc))
    as H.
  { induction l as [|x l IH]; intros acc Hacc; simpl; [done|].
    by apply IH, insert_sorted. }
  apply H. constructor.
Qed.

End SliceByOrder.

Lemma ltb_asym a b : String.ltb a b = true → String.ltb b a = false.
Proof.
  unfold String.ltb. rewrite (String.compare_antisym a b).
  by destruct (String.compare b a).
Qed.

Lemma ltb_notAfter_trans a b c :
  String.ltb b a = false → String.ltb c b = false → String.ltb c a = false.
Proof.
  unfold String.ltb. intros Hba Hcb.
  destruct (String.compare c a) eqn:Hca; [done| |done].
  destruct (String.compare b a) eqn:Hba'; [|done|].
  - apply String.compare_eq_iff in Hba' as ->. by rewrite Hca in Hcb.
  - rewrite String.compare_antisym in Hba'.
    destruct (String.compare a b) eqn:Hab; try discriminate.
    apply OrderedTypeEx.String_as_OT.cmp_lt in Hca, Hab.
    pose proof (OrderedTypeEx.String_as_OT.lt_trans _ _ _ Hca Hab) as Hcb'.
    apply OrderedTypeEx.String_as_OT.cmp_lt in Hcb'.
    unfold OrderedTypeEx.String_as_OT.cmp in Hcb'. by rewrite Hcb' in Hcb.
Qed.

Lemma ltb_total a b : String.ltb b a = false → a ≠ b → String.ltb a b = true.
Proof.
  unfold String.ltb. rewrite (String.compare_antisym a b).
  destruct (String.compare b a) eqn:Hba; simpl; [|done..].
  apply String.compare_eq_iff in Hba. by intros _ [].
Qed.

Lemma Slice_strictly_sorted {A} (key : A → string) (l : list A) :
  NoDup (key <$> l) →
  StronglySorted (fun a b => String.ltb (key a) (key b) = true)
    (GoSort.Slice (fun a b => String.ltb (key a) (key b)) l).
Proof.
  intros Hnd.
  pose proof (Slice_sorted (fun a b => String.ltb (key a) (key b))
                (fun a b => ltb_asym (key a) (key b))
                (fun a b c => ltb_notAfter_trans (key a) (key b) (key c)) l)
    as Hsorted.
  assert (NoDup (key <$> GoSort.Slice (fun a b => String.ltb (key a) (key b)) l))
    as Hnd'.
  { by rewrite Slice_Permutation. }
  induction Hsorted as [|x sorted Hsorted IH Hx]; [constructor|].
  rewrite fmap_cons in Hnd'. apply NoDup_cons in Hnd' as [Hnotin Hnd'].
  constructor; [by apply IH|].
  apply Forall_forall. intros y Hy.
  apply ltb_total.
  - by apply (proj1 (Forall_forall _ _) Hx).
  - intros Heq. apply Hnotin. rewrite Heq. apply list_elem_of_fmap. by exists y.
Qed.

Lemma getOrderedKeys_elem {X} (data : gmap string X) k :
  k ∈ getOrderedKeys data ↔ is_Some (data !! k).
Proof.
  rewrite getOrderedKeys_Permutation, list_elem_of_fmap. split.
  - intros ([k' x] & -> & Hin). apply elem_of_map_to_list in Hin. by exists x.
  - intros [x Hx]. exists (k, x). split; [done|].
    by apply elem_of_map_to_list.
Qed.

(** [getOrderedKeys] lists exactly the keys of the map, each once, in
    strictly increasing byte-wise order. *)
Theorem getOrderedKeys_sorted {X} (data : gmap string X) :
  StronglySorted (fun a b => String.ltb a b = true) (getOrderedKeys data)
  ∧ ∀ k, k ∈ getOrderedKeys data ↔ is_Some (data !! k).
Proof.
  split; [|apply getOrderedKeys_elem].
  unfold getOrderedKeys, GoSort.Strings.
  apply (Slice_strictly_sorted (fun k : string => k)).
  rewrite list_fmap_id. apply NoDup_fst_map_to_list.
Qed.

Lemma MarshalJSON_tempMap (om : OrderedMap) k :
  fold_left (fun m kv => <[KVPair.Key kv := KVPair.Value kv]> m) om
    (∅ : gmap string JSON) !! k
  = Get (reverse om) k.
Proof.
  induction om as [|kv om IH] using rev_ind; [done|].
  rewrite fold_left_app, reverse_app. simpl.
  destruct (String.eqb_spec (KVPair.Key kv) k) as [->|Hne].
  - by rewrite lookup_insert_eq.
  - by rewrite lookup_insert_ne.
Qed.

(** [MarshalJSON] writes the members in strictly increasing byte-wise
    order of their keys, one member per key, with the value of the last
    entry of the document that has the key: where the entries were placed
    in the document has no effect on what is written. *)
Theorem MarshalJSON_sorted_last_wins (om : OrderedMap) :
  StronglySorted (fun a b => String.ltb a.1 b.1 = true) (MarshalJSON om)
  ∧ ∀ k v, (k, v) ∈ MarshalJSON om ↔ Get (reverse om) k = Some v.
Proof.
  unfold MarshalJSON, GoJSON.MarshalMap. split.
  - apply (Slice_strictly_sorted (fun a : string * JSON => a.1)).
    apply NoDup_fst_map_to_list.
  - intros k v. rewrite Slice_Permutation, elem_of_map_to_list.
    by rewrite MarshalJSON_tempMap.
Qed.

(** ** Forward conversion of any ordered document *)

Lemma frontMatterEntry_lookup all fm kv k :
  frontMatterEntry all fm kv !! k
  = if HasPrefix (KVPair.Key kv) "@" then fm !! k
    else if String.eqb (KVPair.Key kv) k
         then Some (Entry (translationEntry (KVPair.Value kv)
                             (Get all ("@" +:+ k))))
         else fm !! k.
Proof.
  unfold frontMatterEntry.
  destruct (HasPrefix (KVPair.Key kv) "@"); [done|].
  destruct (String.eqb_spec (KVPair.Key kv) k) as [->|Hne].
  - rewrite lookup_insert_eq. unfold translationEntry.
    by destruct (Get all ("@" +:+ k)).
  - by rewrite lookup_insert_ne.
Qed.

Lemma frontMatter_fold_lookup all (l : OrderedMap) fm k :
  fold_left (frontMatterEntry all) l fm !! k
  = match (if HasPrefix k "@" then None else Get (reverse l) k) with
    | Some v => Some (Entry (translationEntry v (Get all ("@" +:+ k))))
    | None => fm !! k
    end.
Proof.
  induction l as [|kv l IH] using rev_ind.
  - simpl. by destruct (HasPrefix k "@").
  - rewrite fold_left_app, reverse_app. simpl.
    rewrite frontMatterEntry_lookup, IH.
    destruct (String.eqb_spec (KVPair.Key kv) k) as [->|Hne].
    + by destruct (HasPrefix k "@").
    + by destruct (HasPrefix (KVPair.Key kv) "@").
Qed.

(** The front matter built from an ordered document, whatever its
    entries: a key starting with [@] is never a key of the front matter,
    and any other key holds the value of the last entry with that key
    together with, as metadata, the value of the first entry whose key is
    [@] followed by it.  An [@] entry whose base key is absent leaves no
    trace. *)
Theorem ARBPreProcess_entries (arbData : OrderedMap) (k : string) :
  ARBPreProcess arbData !! k
  = if HasPrefix k "@" then None
    else (fun v => Entry (translationEntry v (Get arbData ("@" +:+ k))))
           <$> Get (reverse arbData) k.
Proof.
  unfold ARBPreProcess. rewrite frontMatter_fold_lookup, lookup_empty.
  destruct (HasPrefix k "@"); [done|].
  by destruct (Get (reverse arbData) k).
Qed.

(** ** When the reverse conversion of a translation document fails *)

Lemma rebuildArbData_None fm keys acc :
  rebuildArbData fm keys acc = None
  ↔ ∃ k, k ∈ keys ∧ ∀ e, fm !! k ≠ Some (Entry e).
Proof.
  revert acc. induction keys as [|key keys IH]; intros acc; simpl.
  - split; [done|]. intros (k & Hk & _). by apply elem_of_nil in Hk.
  - destruct (fm !! key) as [[entry|v]|] eqn:Hkey.
    + rewrite IH. split.
      * intros (k & Hk & Hno). exists k. split; [by right|done].
      * intros (k & [->|Hk]%elem_of_cons & Hno).
        -- by destruct (Hno entry).
        -- by exists k.
    + split; [|done]. intros _. exists key. split; [by left|].
      intros e. by rewrite Hkey.
    + split; [|done]. intros _. exists key. split; [by left|].
      intros e. by rewrite Hkey.
Qed.

(** [ARBPostProcess] fails on a content document, and writes nothing
    for it, whenever the document lists a key twice or holds, under some
    key, a value that is not a mapping. *)
Theorem ARBPostProcess_fails (document : list (string * FrontValue)) :
  ¬ NoDup document.*1 ∨ (∃ k v, (k, Plain v) ∈ document) →
  ARBPostProcess document = None.
Proof.
  unfold ARBPostProcess, YAMLToMapStringInterface.
  destruct (bool_decide_reflect (NoDup document.*1)) as [Hnd|Hdup]; [|done].
  intros [Hdup|(k & v & Hin)]; [done|].
  assert (rebuildArbData (list_to_map document)
            (getOrderedKeys (list_to_map document)) [] = None) as ->; [|done].
  apply rebuildArbData_None. exists k. split.
  - apply getOrderedKeys_elem. exists (Plain v).
    by apply elem_of_list_to_map.
  - intros e. by rewrite (elem_of_list_to_map_1 _ _ _ Hnd Hin).
Qed.

Lemma ARBPostProcess_fails_witness :
  ARBPostProcess
    [("hello", Entry {[ "value" := JString "Hi" ]});
     ("note", Plain (JString "to do"))]
  = None.
Proof.
  apply (ARBPostProcess_fails
           [("hello", Entry {[ "value" := JString "Hi" ]});
            ("note", Plain (JString "to do"))]).
  right. exists "note", (JString "to do").
  rewrite !elem_of_cons. right. left. reflexivity.
Defined.

(** ** The language of a translation file *)

Lemma Split_nonempty s sep : Split s sep ≠ [].
Proof.
  destruct s as [|c r]; simpl; [done|].
  destruct (Ascii.eqb c sep); [done|]. by destruct (Split r sep).
Qed.

Lemma Split_plain s sep :
  sep ∉ list_ascii_of_string s → Split s sep = [s].
Proof.
  induction s as [|c r IH]; simpl; [done|].
  intros [Hc Hr]%not_elem_of_cons.
  destruct (Ascii.eqb_spec c sep) as [->|_]; [done|].
  by rewrite (IH Hr).
Qed.

Lemma Split_parts s sep :
  Forall (fun part => sep ∉ list_ascii_of_string part) (Split s sep).
Proof.
  induction s as [|c r IH]; simpl.
  - constructor; [apply not_elem_of_nil|done].
  - destruct (Ascii.eqb_spec c sep) as [->|Hne].
    + constructor; [apply not_elem_of_nil|done].
    + destruct (Split r sep) as [|part parts].
      * constructor; [|done]. simpl. apply not_elem_of_cons.
        split; [done|apply not_elem_of_nil].
      * apply Forall_cons in IH as [Hpart Hparts].
        constructor; [|done]. simpl. apply not_elem_of_cons. by split.
Qed.

Lemma Split_app a b sep :
  Split (a +:+ String sep b) sep = Split a sep ++ Split b sep.
Proof.
  induction a as [|c a IH]; simpl.
  - by rewrite Ascii.eqb_refl.
  - rewrite IH. destruct (Ascii.eqb c sep); [done|].
    pose proof (Split_nonempty a sep). by destruct (Split a sep).
Qed.

Lemma lastElement_plain reversed suffix :
  "/"%char ∉ reversed →
  GoFilepath.lastElement reversed suffix = rev reversed ++ suffix.
Proof.
  revert suffix. induction reversed as [|c before IH]; intros suffix; [done|].
  intros [Hc Hbefore]%not_elem_of_cons. simpl.
  destruct (Ascii.eqb_spec c "/") as [->|_]; [done|].
  rewrite (IH _ Hbefore). by rewrite <- app_assoc.
Qed.

Lemma dropSeparators_plain reversed :
  "/"%char ∉ reversed → GoFilepath.dropSeparators reversed = reversed.
Proof.
  destruct reversed as [|c before]; [done|].
  intros [Hc _]%not_elem_of_cons. simpl.
  by destruct (Ascii.eqb_spec c "/") as [->|_].
Qed.

Lemma Base_plain s :
  s ≠ "" → "/"%char ∉ list_ascii_of_string s → GoFilepath.Base s = s.
Proof.
  intros Hne Hplain. destruct s as [|c r]; [done|].
  unfold GoFilepath.Base.
  assert ("/"%char ∉ rev (list_ascii_of_string (String c r))) as Hrev.
  { intros Hin. apply Hplain. by apply list_elem_of_In, in_rev, list_elem_of_In. }
  rewrite (dropSeparators_plain _ Hrev), (lastElement_plain _ _ Hrev).
  rewrite rev_involutive, app_nil_r.
  change (list_ascii_of_string (String c r)) with (c :: list_ascii_of_string r).
  cbn [string_of_list_ascii]. by rewrite string_of_list_ascii_of_string.
Qed.

Lemma Ext_arb s : GoFilepath.Ext (s +:+ ".arb") = ".arb".
Proof.
  unfold GoFilepath.Ext.
  by rewrite list_ascii_of_string_app, rev_app_distr.
Qed.

Lemma extractLanguage_suffixed stem language :
  "/"%char ∉ list_ascii_of_string stem →
  "/"%char ∉ list_ascii_of_string language →
  "_"%char ∉ list_ascii_of_string language →
  extractLanguage (stem +:+ String "_" language +:+ ".arb") = language.
Proof.
  intros Hstem Hlang Hsep. unfold extractLanguage.
  assert (stem +:+ String "_" language +:+ ".arb"
          = (stem +:+ String "_" language) +:+ ".arb") as ->.
  { clear. induction stem as [|c stem IH]; [done|].
    change (String c (stem +:+ String "_" language +:+ ".arb")
            = String c ((stem +:+ String "_" language) +:+ ".arb")).
    by rewrite IH. }
  rewrite Base_plain.
  - rewrite Ext_arb, TrimSuffix_app, Split_app, (Split_plain _ _ Hsep).
    rewrite length_app. simpl.
    pose proof (Split_nonempty stem "_") as Hparts.
    destruct (Split stem "_") as [|part parts]; [done|].
    rewrite last_last.
    destruct (Nat.ltb_spec 1 (length (part :: parts) + 1)) as [_|Hle];
      [done|simpl in Hle; lia].
  - by destruct stem.
  - rewrite !list_ascii_of_string_app. simpl.
    rewrite !elem_of_app, !elem_of_cons.
    intros [[?|[?|?]]|[?|[?|[?|[?|?%elem_of_nil]]]]]; done.
Qed.

(** A translation file named [<stem>_<language>.arb] is read as the
    file of [language], for every language code without underscore; in
    particular the file that the reverse conversion writes for a
    language, [app_<language>.arb], is read back as that language. *)
Theorem extractLanguage_round_trip (language : string) :
  "/"%char ∉ list_ascii_of_string language →
  "_"%char ∉ list_ascii_of_string language →
  (∀ stem, "/"%char ∉ list_ascii_of_string stem →
     extractLanguage (stem +:+ "_" +:+ language +:+ ".arb") = language)
  ∧ extractLanguage (arbFileName language) = language.
Proof.
  intros Hlang Hsep. split.
  - intros stem Hstem. by apply extractLanguage_suffixed.
  - apply (extractLanguage_suffixed "app"); [|done..].
    simpl. rewrite !elem_of_cons.
    intros [?|[?|[?|?%elem_of_nil]]]; done.
Qed.

Lemma extractLanguage_round_trip_witness :
  extractLanguage (arbFileName "en") = "en".
Proof.
  refine (proj2 (extractLanguage_round_trip "en" _ _)).
  - simpl. rewrite !elem_of_cons. intros [?|[?|?%elem_of_nil]]; done.
  - simpl. rewrite !elem_of_cons. intros [?|[?|?%elem_of_nil]]; done.
Defined.

Lemma lastElement_elem c reversed suffix :
  c ∈ GoFilepath.lastElement reversed suffix → c ∈ reversed ∨ c ∈ suffix.
Proof.
  revert suffix. induction reversed as [|d before IH]; intros suffix; simpl.
  - by right.
  - destruct (Ascii.eqb d "/"); [by right|].
    intros [Hin|[->|Hin]%elem_of_cons]%IH.
    + left. by right.
    + left. by left.
    + by right.
Qed.

Lemma dropSeparators_elem c reversed :
  c ∈ GoFilepath.dropSeparators reversed → c ∈ reversed.
Proof.
  induction reversed as [|d before IH]; simpl; [done|].
  destruct (Ascii.eqb d "/"); [|done]. intros Hin. right. by apply IH.
Qed.

Lemma Base_bytes c path :
  c ∈ list_ascii_of_string (GoFilepath.Base path) →
  c ∈ list_ascii_of_string path ∨ c = "."%char ∨ c = "/"%char.
Proof.
  unfold GoFilepath.Base. destruct path as [|d r].
  - simpl. intros ->%list_elem_of_singleton. right. by left.
  - destruct (GoFilepath.lastElement _ _) as [|e element] eqn:Hlast.
    + simpl. intros ->%list_elem_of_singleton. right. by right.
    + rewrite list_ascii_of_string_of_list_ascii, <- Hlast.
      intros [Hin|Hin%elem_of_nil]%lastElement_elem; [|done].
      apply dropSeparators_elem in Hin. left.
      by apply list_elem_of_In, in_rev, list_elem_of_In.
Qed.

Lemma rev_string_bytes c s :
  c ∈ list_ascii_of_string (rev_string s) ↔ c ∈ list_ascii_of_string s.
Proof.
  unfold rev_string. rewrite list_ascii_of_string_of_list_ascii.
  rewrite !list_elem_of_In. symmetry. apply in_rev.
Qed.

Lemma TrimSuffix_bytes c s suf :
  c ∈ list_ascii_of_string (TrimSuffix s suf) → c ∈ list_ascii_of_string s.
Proof.
  unfold TrimSuffix, TrimPrefix. rewrite rev_string_bytes.
  destruct (stripPrefix (rev_string suf) (rev_string s)) as [r|] eqn:Hstrip.
  - apply stripPrefix_Some in Hstrip. intros Hin.
    apply rev_string_bytes. rewrite Hstrip, list_ascii_of_string_app.
    apply elem_of_app. by right.
  - apply rev_string_bytes.
Qed.

(** The language read from a file name never contains an underscore,
    and a file whose name has no underscore has no language: it is
    skipped by the forward conversion and by the generation of the
    configuration. *)
Theorem extractLanguage_underscore (filename : string) :
  ("_"%char ∉ list_ascii_of_string (extractLanguage filename))
  ∧ ("_"%char ∉ list_ascii_of_string filename →
     extractLanguage filename = "").
Proof.
  unfold extractLanguage. split.
  - destruct (1 <? _)%nat; [|apply not_elem_of_nil].
    pose proof (Split_parts
                  (TrimSuffix (GoFilepath.Base filename)
                     (GoFilepath.Ext (GoFilepath.Base filename))) "_") as Hparts.
    pose proof (Split_nonempty
                  (TrimSuffix (GoFilepath.Base filename)
                     (GoFilepath.Ext (GoFilepath.Base filename))) "_") as Hne.
    destruct (exists_last Hne) as (init & part & Heq).
    rewrite Heq in Hparts |- *. rewrite last_last.
    apply Forall_app in Hparts as [_ Hpart]. exact (Forall_inv Hpart).
  - intros Hplain. rewrite Split_plain; [done|].
    intros Hin%TrimSuffix_bytes%Base_bytes.
    destruct Hin as [?|[?|?]]; done.
Qed.

Lemma extractLanguage_underscore_witness : extractLanguage "en.arb" = "".
Proof.
  refine (proj2 (extractLanguage_underscore "en.arb") _).
  simpl. rewrite !elem_of_cons.
  intros [?|[?|[?|[?|[?|[?|?%elem_of_nil]]]]]]; done.
Defined.

(** ** The slug flag *)

Lemma Split_Join fields sep :
  fields ≠ [] →
  Forall (fun field => sep ∉ list_ascii_of_string field) fields →
  Split (Join fields (String sep "")) sep = fields.
Proof.
  intros Hne Hplain. induction Hplain as [|field fields Hfield Hfields IH];
    [done|].
  destruct fields as [|next fields].
  - simpl. by apply Split_plain.
  - change (Join (field :: next :: fields) (String sep ""))
      with (field +:+ String sep "" +:+ Join (next :: fields) (String sep "")).
    change (String sep "" +:+ ?r) with (String sep r).
    rewrite Split_app, (Split_plain _ _ Hfield), IH; done.
Qed.

(** The value [a,b,c] of the flag [--slug] selects the fields [a], [b],
    [c] in that order: joining field names that hold no comma with commas
    and parsing the flag gives the names back, the single empty name
    excepted, which is read as no field at all. *)
Theorem slugFieldList_Join (fields : list string) :
  Forall (fun field => ","%char ∉ list_ascii_of_string field) fields →
  fields ≠ [""] →
  slugFieldList (Join fields ",") = fields.
Proof.
  intros Hplain Hne. unfold slugFieldList.
  destruct fields as [|field fields]; [done|].
  rewrite (Split_Join (field :: fields) ","); [|done..].
  destruct (String.eqb_spec (Join (field :: fields) ",") "") as [Hempty|_];
    [|done].
  destruct fields as [|next fields].
  - simpl in Hempty. by subst field.
  - change (Join (field :: next :: fields) ",")
      with (field +:+ "," +:+ Join (next :: fields) ",") in Hempty.
    destruct field; discriminate Hempty.
Qed.

Lemma slugFieldList_Join_witness :
  slugFieldList (Join ["id"; "name"] ",") = ["id"; "name"].
Proof.
  apply (slugFieldList_Join ["id"; "name"]).
  - repeat constructor; simpl; rewrite !elem_of_cons.
    + intros [?|[?|?%elem_of_nil]]; done.
    + intros [?|[?|[?|[?|?%elem_of_nil]]]]; done.
  - discriminate.
Defined.

(** ** Synchronisation with any descriptors *)

Lemma upsertCollection_total nodes d :
  Forall isMapping nodes →
  ∃ nodes',
    upsertCollection nodes d = Ok nodes'
    ∧ Forall isMapping nodes'
    ∧ (length nodes ≤ length nodes' ≤ S (length nodes))%nat.
Proof.
  induction 1 as [|n nodes Hn Hnodes IH]; simpl.
  - eexists. split; [done|]. split; [|simpl; lia].
    constructor; [apply isMapping_encoded|done].
  - destruct (String.eqb (decodeFolder n) (Collection.Folder d)).
    + destruct (merge_total n d Hn) as (n' & -> & Hn' & _). simpl.
      eexists. split; [done|]. split; [by constructor|simpl; lia].
    + destruct IH as (nodes' & -> & Hnodes' & Hlen). simpl.
      eexists. split; [done|]. split; [by constructor|simpl; lia].
Qed.

Lemma upsertCollectionsFrom_total collections nodes :
  Forall isMapping nodes →
  ∃ nodes',
    upsertCollectionsFrom collections nodes = Ok nodes'
    ∧ Forall isMapping nodes'
    ∧ (length nodes ≤ length nodes' ≤ length nodes + length collections)%nat.
Proof.
  revert nodes. induction collections as [|d collections IH];
    intros nodes Hnodes; simpl.
  - exists nodes. split; [done|]. split; [done|lia].
  - destruct (upsertCollection_total nodes d Hnodes) as (nodes1 & -> & H1 & Hlen1).
    simpl. destruct (IH nodes1 H1) as (nodes' & -> & H' & Hlen').
    exists nodes'. split; [done|]. split; [done|lia].
Qed.

(** On a configuration tree synchronisation returns for every list of
    descriptors; its result is again a configuration tree, in which no
    collection entry has been removed and at most one has been added per
    descriptor. *)
Theorem synchronize_preserves_configTree
    (rootNode : Node) (collections : list Collection) :
  configTree rootNode →
  ∃ rootNode',
    synchronize rootNode collections = Ok rootNode'
    ∧ configTree rootNode'
    ∧ (length (collectionsOf rootNode) ≤ length (collectionsOf rootNode')
       ≤ length (collectionsOf rootNode) + length collections)%nat.
Proof.
  unfold configTree, collectionsOf, synchronize, findFieldInNode.
  intros Htree.
  destruct (Content rootNode) as [|top others] eqn:Hroot; [done|].
  destruct Htree as [[Hkind Heven] Hentries].
  pose proof (findFieldIndex_even (Content top) "collections" Heven) as Hok.
  destruct (findFieldIndex (Content top) "collections") as [[j|]|] eqn:Hj;
    [| |done]; simpl in *.
  - pose proof (findFieldIndex_lt _ _ _ Hj) as Hlt.
    destruct (Content top !! j) as [collectionsNode|] eqn:Hc.
    2:{ apply lookup_ge_None in Hc. lia. }
    destruct (upsertCollectionsFrom_total collections
                (Content collectionsNode) Hentries)
      as (nodes' & Hup & Hmaps & Hlen).
    unfold upsertCollections. rewrite Hup. simpl.
    eexists. split; [done|]. simpl.
    rewrite (findFieldIndex_insert _ _ _ _ Hj). simpl.
    rewrite list_lookup_insert_eq by done. simpl.
    split; [|done]. split; [|done].
    split; [done|]. simpl. by rewrite length_insert.
  - destruct (upsertCollectionsFrom_total collections [] Hentries)
      as (nodes' & Hup & Hmaps & Hlen).
    unfold upsertCollections. simpl. rewrite Hup. simpl.
    eexists. split; [done|]. simpl.
    rewrite findFieldIndex_app_missing by done. simpl.
    rewrite lookup_app_r by lia.
    replace (length (Content top) + 1 - length (Content top)) with 1 by lia.
    simpl. split; [|done]. split; [|done].
    split; [done|]. simpl. by apply even_length_app.
Qed.

Lemma synchronize_preserves_configTree_witness :
  ∃ rootNode',
    synchronize sampleDocument
      [arbCollection "content" "en" []; arbCollection "content" "fr" []]
    = Ok rootNode'
    ∧ configTree rootNode'.
Proof.
  destruct (synchronize_preserves_configTree sampleDocument
              [arbCollection "content" "en" []; arbCollection "content" "fr" []])
    as (rootNode' & Hrun & Htree & _).
  - apply sampleDocument_configTree.
  - exists rootNode'. split; [exact Hrun|exact Htree].
Defined.

(** Synchronisation changes children only: the document node and its
    top-level mapping keep their kind, tag, value and comments, the nodes
    after the top-level mapping are kept, and so are kind, tag, value and
    comments of an existing collections node. *)
Theorem synchronize_keeps_attributes
    (rootNode : Node) (collections : list Collection) (rootNode' : Node) :
  synchronize rootNode collections = Ok rootNode' →
  sameAttributes rootNode rootNode'
  ∧ ∃ top top' others,
      Content rootNode = top :: others
      ∧ Content rootNode' = top' :: others
      ∧ sameAttributes top top'
      ∧ ∀ collectionsNode,
          findFieldInNode top "collections" = Ok (Some collectionsNode) →
          ∃ collectionsNode',
            findFieldInNode top' "collections" = Ok (Some collectionsNode')
            ∧ sameAttributes collectionsNode collectionsNode'.
Proof.
  unfold synchronize, findFieldInNode.
  destruct (Content rootNode) as [|top others] eqn:Hroot; [done|].
  destruct (findFieldIndex (Content top) "collections") as [[j|]|] eqn:Hj;
    simpl; [| |done].
  - destruct (Content top !! j) as [collectionsNode|] eqn:Hc; [|done].
    unfold upsertCollections.
    destruct (upsertCollectionsFrom collections (Content collectionsNode))
      as [nodes|]; simpl; [|done].
    intros [= <-]. split; [by repeat split|].
    eexists top, _, others. split; [done|]. split; [done|].
    split; [by repeat split|].
    intros c. rewrite Hj. simpl. rewrite Hc. intros [= <-].
    rewrite (findFieldIndex_insert _ _ _ _ Hj). simpl.
    rewrite list_lookup_insert_eq by (by eapply findFieldIndex_lt).
    eexists. split; [done|]. by repeat split.
  - unfold upsertCollections.
    destruct (upsertCollectionsFrom collections (Content sequenceLit))
      as [nodes|]; simpl; [|done].
    intros [= <-]. split; [by repeat split|].
    eexists top, _, others. split; [done|]. split; [done|].
    split; [by repeat split|]. intros c. rewrite Hj. simpl. intros [=].
Qed.

Lemma synchronize_keeps_attributes_witness :
  ∃ rootNode' top',
    synchronize sampleDocument sampleDescriptors = Ok rootNode'
    ∧ Content rootNode' = [top']
    ∧ HeadComment top' = "# site configuration".
Proof.
  destruct (synchronize sampleDocument sampleDescriptors)
    as [rootNode'|] eqn:Hrun; [|vm_compute in Hrun; discriminate Hrun].
  destruct (synchronize_keeps_attributes sampleDocument sampleDescriptors
              rootNode' Hrun)
    as (_ & top & top' & others & Hroot & Hroot' & Hsame & _).
  exists rootNode', top'. split; [reflexivity|].
  injection Hroot as <- <-. split; [exact Hroot'|].
  destruct Hsame as (_ & _ & _ & Hhead & _). symmetry. exact Hhead.
Defined.

(** ** Reading and writing through an ordered document *)

Lemma Get_reverse (om : OrderedMap) key :
  NoDup (KVPair.Key <$> om) → Get (reverse om) key = Get om key.
Proof.
  intros Hnd.
  assert (NoDup (KVPair.Key <$> reverse om)) as Hnd'.
  { by rewrite fmap_reverse, reverse_Permutation. }
  apply option_eq. intros v.
  rewrite (Get_Some _ _ _ Hnd), (Get_Some _ _ _ Hnd').
  by rewrite elem_of_reverse.
Qed.

(** Parsing a JSON object into an ordered document and writing the
    document again gives what parsing into a plain map and writing the
    map gives, whatever the order in which the runtime ranges over a map:
    the ordered document carries the order of nothing. *)
Theorem MarshalJSON_UnmarshalJSON
    (rangeOrder : gmap string JSON → list (string * JSON))
    (data : list (string * JSON)) :
  (∀ m : gmap string JSON, rangeOrder m ≡ₚ map_to_list m) →
  MarshalJSON (UnmarshalJSON rangeOrder data)
  = GoJSON.MarshalMap (GoJSON.UnmarshalMap data).
Proof.
  intros Hrange. unfold MarshalJSON. f_equal.
  apply map_eq. intros k. rewrite MarshalJSON_tempMap.
  destruct (UnmarshalJSON_Get rangeOrder data k Hrange) as [Hnd Hget].
  by rewrite (Get_reverse _ _ Hnd).
Qed.

Lemma MarshalJSON_UnmarshalJSON_witness :
  MarshalJSON
    (UnmarshalJSON map_to_list [("b", JNumber 2); ("a", JNumber 1)])
  = GoJSON.MarshalMap
      (GoJSON.UnmarshalMap [("b", JNumber 2); ("a", JNumber 1)]).
Proof.
  apply (MarshalJSON_UnmarshalJSON map_to_list).
  intros m. reflexivity.
Defined.

(** ** Slug fields with a reserved name *)

(** A slug field with a reserved name contributes nothing to the
    identifier of any row: the column of that name is stored under its
    alias, so the name is not a key of the document. *)
Theorem slug_ignores_reserved_names
    (headers record before after : list string) (field : string) :
  isReserved field = true →
  generateIdentifierField (rowData headers record) (before ++ field :: after)
  = generateIdentifierField (rowData headers record) (before ++ after).
Proof.
  intros Hres. rewrite !generateIdentifierField_omap, !omap_app. simpl.
  assert (rowData headers record !! field = None) as ->; [|done].
  apply eq_None_not_Some. rewrite rowData_is_Some.
  intros (j & h & _ & _ & ->).
  by rewrite isReserved_addPrefixIfReserved in Hres.
Qed.

Lemma slug_ignores_reserved_names_witness :
  generateIdentifierField (rowData ["name"; "data"] ["Alice"; "x"])
    ["name"; "data"]
  = generateIdentifierField (rowData ["name"; "data"] ["Alice"; "x"]) ["name"].
Proof.
  apply (slug_ignores_reserved_names ["name"; "data"] ["Alice"; "x"]
           ["name"] [] "data").
  reflexivity.
Defined.
